(** * Tetris engine of [tetris_streamlit_v1.py]: shallow embedding and
      verification of its collision test, locking, line clearing and
      gravity step.

    Python integers are unbounded, so every number is a [Z].  The playing
    field is a list of rows, each a list of cell values ([0] empty,
    [1..7] a locked piece, [9] border).  Python's [IndexError] is the
    [None] of the option monad; indexing keeps Python's rule that a
    negative index counts from the end of the sequence. *)

From Stdlib Require Import ZArith Ascii String Lia.
From stdpp Require Import base option list relations strings pretty.

Open Scope Z_scope.

(** ** Python sequences *)

(** [seq[i]] resolves [i] against a sequence of length [n]: [0 <= i < n]
    is itself, [-n <= i < 0] counts from the end, anything else raises. *)
Definition py_norm (n : nat) (i : Z) : option nat :=
  if bool_decide (0 ≤ i < Z.of_nat n) then Some (Z.to_nat i)
  else if bool_decide (- Z.of_nat n ≤ i < 0) then Some (Z.to_nat (Z.of_nat n + i))
  else None.

Definition py_getitem {A} (l : list A) (i : Z) : option A :=
  j ← py_norm (length l) i; l !! j.

Definition py_setitem {A} (l : list A) (i : Z) (v : A) : option (list A) :=
  j ← py_norm (length l) i; Some (<[j:=v]> l).

Definition py_pop {A} (l : list A) (i : Z) : option (list A) :=
  j ← py_norm (length l) i; Some (delete j l).

(** [range(n)] *)
Definition py_range (n : Z) : list Z := seqZ 0 n.

(** [range(lo, hi)] *)
Definition py_range2 (lo hi : Z) : list Z := seqZ lo (hi - lo).

(** [range(hi, -1, -1)]: [hi, hi-1, ..., 0]. *)
Definition py_range_down (hi : Z) : list Z := reverse (seqZ 0 (hi + 1)).

(** ** Constants *)

Definition FIELD_WIDTH : Z := 12.
Definition FIELD_HEIGHT : Z := 18.

Definition tetromino : list string :=
  [ "..X...X...X...X."; "..X..XX..X......"; ".X...XX...X.....";
    ".....XX..XX....."; ".X...X...XX....."; "..X...X..XX.....";
    ".X...XX...X....." ]%string.

(** ** Core logic *)

Definition rotate (px py r : Z) : Z :=
  let index := 0 in
  let r := r mod 4 in
  if r =? 0 then py * 4 + px
  else if r =? 1 then 12 + py - (px * 4)
  else if r =? 2 then 15 - (py * 4) - px
  else if r =? 3 then 3 - py + (px * 4)
  else index.

(** The test [tetromino[n][rotate(px, py, r)] == 'X'] shared by
    [does_piece_fit], [lock_piece] and the drawing code. *)
Definition piece_cell (n r px py : Z) : option bool :=
  pat ← py_getitem tetromino n;
  ch ← py_getitem (list_ascii_of_string pat) (rotate px py r);
  Some (Ascii.eqb ch "X"%char).

(** [for px in range(4): for py in range(4):] in iteration order. *)
Definition footprint : list (Z * Z) :=
  px ← py_range 4; py ← py_range 4; [(px, py)].

Abbreviation Field := (list (list Z)).

Fixpoint fit_cells (field : Field) (n r x y : Z) (cells : list (Z * Z))
  : option bool :=
  match cells with
  | [] => Some true
  | (px, py) :: rest =>
    occ ← piece_cell n r px py;
    if occ : bool then
      let fi_x := x + px in
      let fi_y := y + py in
      if (fi_x <? 0) || (fi_x >=? FIELD_WIDTH) ||
         (fi_y <? 0) || (fi_y >=? FIELD_HEIGHT)
      then Some false
      else
        row ← py_getitem field fi_y;
        c ← py_getitem row fi_x;
        if negb (c =? 0) then Some false
        else fit_cells field n r x y rest
    else fit_cells field n r x y rest
  end.

Definition does_piece_fit (field : Field) (n_tetromino n_rotation n_pos_x n_pos_y : Z)
  : option bool :=
  fit_cells field n_tetromino n_rotation n_pos_x n_pos_y footprint.

(** ** Session state *)

Record State := mkState {
  field : Field;
  score : Z;
  game_over : bool;
  speed : Z;
  speed_counter : Z;
  piece_count : Z;
  current_piece : Z;
  current_rotation : Z;
  current_x : Z;
  current_y : Z
}.

Definition set_field (f : Field) (s : State) : State :=
  mkState f (score s) (game_over s) (speed s) (speed_counter s) (piece_count s)
          (current_piece s) (current_rotation s) (current_x s) (current_y s).
Definition set_score (v : Z) (s : State) : State :=
  mkState (field s) v (game_over s) (speed s) (speed_counter s) (piece_count s)
          (current_piece s) (current_rotation s) (current_x s) (current_y s).
Definition set_game_over (v : bool) (s : State) : State :=
  mkState (field s) (score s) v (speed s) (speed_counter s) (piece_count s)
          (current_piece s) (current_rotation s) (current_x s) (current_y s).
Definition set_speed (v : Z) (s : State) : State :=
  mkState (field s) (score s) (game_over s) v (speed_counter s) (piece_count s)
          (current_piece s) (current_rotation s) (current_x s) (current_y s).
Definition set_speed_counter (v : Z) (s : State) : State :=
  mkState (field s) (score s) (game_over s) (speed s) v (piece_count s)
          (current_piece s) (current_rotation s) (current_x s) (current_y s).
Definition set_piece_count (v : Z) (s : State) : State :=
  mkState (field s) (score s) (game_over s) (speed s) (speed_counter s) v
          (current_piece s) (current_rotation s) (current_x s) (current_y s).
Definition set_current_piece (v : Z) (s : State) : State :=
  mkState (field s) (score s) (game_over s) (speed s) (speed_counter s) (piece_count s)
          v (current_rotation s) (current_x s) (current_y s).
Definition set_current_rotation (v : Z) (s : State) : State :=
  mkState (field s) (score s) (game_over s) (speed s) (speed_counter s) (piece_count s)
          (current_piece s) v (current_x s) (current_y s).
Definition set_current_x (v : Z) (s : State) : State :=
  mkState (field s) (score s) (game_over s) (speed s) (speed_counter s) (piece_count s)
          (current_piece s) (current_rotation s) v (current_y s).
Definition set_current_y (v : Z) (s : State) : State :=
  mkState (field s) (score s) (game_over s) (speed s) (speed_counter s) (piece_count s)
          (current_piece s) (current_rotation s) (current_x s) v.

(** The current piece tested at a placement of the caller's choice. *)
Definition fits_at (s : State) (r x y : Z) : option bool :=
  does_piece_fit (field s) (current_piece s) r x y.

(** [new_piece]; [k] is the value drawn by [random.randint(0, 6)]. *)
Definition new_piece (k : Z) (s : State) : option State :=
  let s := set_current_piece k s in
  let s := set_current_rotation 0 s in
  let s := set_current_x (FIELD_WIDTH `div` 2 - 2) s in
  let s := set_current_y 0 s in
  ok ← fits_at s (current_rotation s) (current_x s) (current_y s);
  if negb ok then Some (set_game_over true s) else Some s.

(** The field built by [initialize_game]. *)
Definition border_cell (x y : Z) : Z :=
  if (x =? 0) || (x =? FIELD_WIDTH - 1) || (y =? FIELD_HEIGHT - 1) then 9 else 0.

Definition initial_field : Field :=
  (λ y, (λ x, border_cell x y) <$> py_range FIELD_WIDTH) <$> py_range FIELD_HEIGHT.

(** The session either has no ['field'] key yet ([None]) or holds a game. *)
Abbreviation Session := (option State).

Definition initialize_game (k : Z) (ss : Session) : option State :=
  match ss with
  | Some s => Some s
  | None => new_piece k (mkState initial_field 0 false 20 0 0 0 0 0 0)
  end.

(** [field[y][x] = v] *)
Definition write_cell (field : Field) (x y v : Z) : option Field :=
  row ← py_getitem field y;
  row' ← py_setitem row x v;
  py_setitem field y row'.

Fixpoint lock_cells (field : Field) (piece rot x_pos y_pos : Z)
  (cells : list (Z * Z)) : option Field :=
  match cells with
  | [] => Some field
  | (px, py) :: rest =>
    occ ← piece_cell piece rot px py;
    if occ : bool then
      field' ← write_cell field (x_pos + px) (y_pos + py) (piece + 1);
      lock_cells field' piece rot x_pos y_pos rest
    else lock_cells field piece rot x_pos y_pos rest
  end.

Definition lock_piece (s : State) : option State :=
  f ← lock_cells (field s) (current_piece s) (current_rotation s)
                 (current_x s) (current_y s) footprint;
  Some (set_field f s).

(** Inner loop of [check_lines]: stops at the first empty cell. *)
Fixpoint is_line (field : Field) (y : Z) (xs : list Z) : option bool :=
  match xs with
  | [] => Some true
  | x :: rest =>
    row ← py_getitem field y;
    c ← py_getitem row x;
    if c =? 0 then Some false else is_line field y rest
  end.

Fixpoint lines_to_clear (field : Field) (ys : list Z) : option (list Z) :=
  match ys with
  | [] => Some []
  | y :: rest =>
    full ← is_line field y (py_range2 1 (FIELD_WIDTH - 1));
    tl ← lines_to_clear field rest;
    Some (if full : bool then y :: tl else tl)
  end.

Fixpoint pop_lines (field : Field) (ys : list Z) : option Field :=
  match ys with
  | [] => Some field
  | y_line :: rest => f ← py_pop field y_line; pop_lines f rest
  end.

Definition new_row : list Z :=
  <[Z.to_nat (FIELD_WIDTH - 1) := 9]> (<[0%nat := 9]> (replicate (Z.to_nat FIELD_WIDTH) 0)).

Fixpoint insert_rows (n : nat) (field : Field) : Field :=
  match n with
  | O => field
  | S n' => insert_rows n' (new_row :: field)
  end.

Definition check_lines (s : State) : option State :=
  ls ← lines_to_clear (field s) (py_range_down (FIELD_HEIGHT - 2));
  match ls with
  | [] => Some s
  | _ =>
    let lines_cleared := length ls in
    let s := set_score (score s + Z.shiftl 1 (Z.of_nat lines_cleared) * 100) s in
    f ← pop_lines (field s) ls;
    Some (set_field (insert_rows lines_cleared f) s)
  end.

(** ** Button handlers *)

Definition handle_left (s : State) : option State :=
  ok ← fits_at s (current_rotation s) (current_x s - 1) (current_y s);
  if ok : bool then Some (set_current_x (current_x s - 1) s) else Some s.

Definition handle_right (s : State) : option State :=
  ok ← fits_at s (current_rotation s) (current_x s + 1) (current_y s);
  if ok : bool then Some (set_current_x (current_x s + 1) s) else Some s.

Definition handle_down (s : State) : option State :=
  ok ← fits_at s (current_rotation s) (current_x s) (current_y s + 1);
  if ok : bool then
    Some (set_speed_counter 0 (set_current_y (current_y s + 1) s))
  else Some s.

Definition handle_rotate (s : State) : option State :=
  ok ← fits_at s (current_rotation s + 1) (current_x s) (current_y s);
  if ok : bool then Some (set_current_rotation (current_rotation s + 1) s) else Some s.

(** ** The script body *)

(** Body of [if force_down:]; [k] is the draw used if a piece is spawned. *)
Definition force_down_step (k : Z) (s : State) : option State :=
  let s := set_speed_counter 0 s in
  ok ← fits_at s (current_rotation s) (current_x s) (current_y s + 1);
  if ok : bool then Some (set_current_y (current_y s + 1) s)
  else
    s ← lock_piece s;
    s ← check_lines s;
    s ← new_piece k s;
    let s := set_piece_count (piece_count s + 1) s in
    if (piece_count s mod 10 =? 0) && (speed s >? 10)
    then Some (set_speed (speed s - 1) s)
    else Some s.

(** The game loop at the end of the script. *)
Definition game_loop (k : Z) (s : State) : option State :=
  let s := set_speed_counter (speed_counter s + 1) s in
  let force_down := speed_counter s >=? speed s in
  if force_down then force_down_step k s else Some s.

(** One execution of the script from [initialize_game()] to [st.rerun()].
    [restart] tells whether the restart button of the game-over screen
    was pressed; [k0] and [k] are the draws available to
    [initialize_game] and to the game loop.  The result is the session
    the next execution starts from. *)
Definition script_run (restart : bool) (k0 k : Z) (ss : Session) : option Session :=
  s ← initialize_game k0 ss;
  if game_over s then
    if restart then Some None else Some (Some s)
  else
    s' ← game_loop k s; Some (Some s').

(** The values [random.randint(0, 6)] can return. *)
Definition valid_kind (k : Z) : Prop := 0 ≤ k < 7.

(** ** The session as a transition system *)

Inductive Button := BtnLeft | BtnDown | BtnRight | BtnRotate.

Definition on_click (b : Button) (s : State) : option State :=
  match b with
  | BtnLeft => handle_left s
  | BtnDown => handle_down s
  | BtnRight => handle_right s
  | BtnRotate => handle_rotate s
  end.

(** What can happen to a running game: a button callback, or one
    execution of the script without a restart. *)
Inductive play_step : State → State → Prop :=
  | play_click b s s' :
      on_click b s = Some s' → play_step s s'
  | play_run k0 k s s' :
      valid_kind k → script_run false k0 k (Some s) = Some (Some s') →
      play_step s s'.

(** States the session can hold: the first execution on an empty
    session (at start, or after a restart cleared it) creates the game,
    from there the game is played. *)
Inductive reachable : State → Prop :=
  | reach_fresh restart k0 k s :
      valid_kind k0 → valid_kind k →
      script_run restart k0 k None = Some (Some s) → reachable s
  | reach_play s s' :
      reachable s → play_step s s' → reachable s'.

(** Sessions replayed from a list of events, for concrete scenarios. *)
Inductive Event :=
  | Click (b : Button)
  | Run (k : Z).

Definition exec (e : Event) (s : State) : option State :=
  match e with
  | Click b => on_click b s
  | Run k => ss ← script_run false k k (Some s); ss
  end.

Fixpoint exec_trace (es : list Event) (s : State) : option State :=
  match es with
  | [] => Some s
  | e :: rest => s' ← exec e s; exec_trace rest s'
  end.

(** A game in which four I pieces are dropped straight down, so that
    they stack in column 6 up to row 1, and the next draw is an O. *)
Definition drop_piece (next : Z) : list Event :=
  replicate 16 (Click BtnDown) ++ replicate 19 (Run 0) ++ [Run next].

Definition stacked_trace : list Event :=
  drop_piece 0 ++ drop_piece 0 ++ drop_piece 0 ++ drop_piece 3.

Definition stacked_field : Field :=
  [9; 0; 0; 0; 0; 0; 0; 0; 0; 0; 0; 9] ::
  replicate 16 [9; 0; 0; 0; 0; 0; 1; 0; 0; 0; 0; 9] ++
  [[9; 9; 9; 9; 9; 9; 9; 9; 9; 9; 9; 9]].

Definition stacked_state : State :=
  mkState stacked_field 0 true 20 0 4 3 0 4 0.

Definition event_ok (e : Event) : Prop :=
  match e with
  | Click _ => True
  | Run k => valid_kind k
  end.

(** Concrete states used as test inputs. *)

(** An O piece just spawned on the empty bordered field. *)
Definition spawn_state : State :=
  mkState initial_field 0 false 20 0 0 3 0 4 0.

(** An O piece resting in the two-cell gap of rows 15 and 16, which it
    completes. *)
Definition gap_row : list Z := [9; 1; 1; 1; 1; 0; 0; 1; 1; 1; 1; 9].

Definition two_line_field : Field :=
  replicate 15 [9; 0; 0; 0; 0; 0; 0; 0; 0; 0; 0; 9] ++
  [gap_row; gap_row; [9; 9; 9; 9; 9; 9; 9; 9; 9; 9; 9; 9]].

Definition two_line_state : State :=
  mkState two_line_field 0 false 20 0 9 3 0 4 14.

(** A field whose row 16 is full. *)
Definition one_line_state : State :=
  mkState (replicate 16 [9; 0; 0; 0; 0; 0; 0; 0; 0; 0; 0; 9] ++
           [[9; 2; 2; 2; 2; 2; 2; 2; 2; 2; 2; 9];
            [9; 9; 9; 9; 9; 9; 9; 9; 9; 9; 9; 9]])
          0 false 20 0 0 3 0 4 0.

(** ** Specification vocabulary *)

(** A field of the declared dimensions: [FIELD_HEIGHT] rows of
    [FIELD_WIDTH] cells. *)
Definition wf_field (f : Field) : Prop :=
  length f = Z.to_nat FIELD_HEIGHT ∧
  Forall (λ row, length row = Z.to_nat FIELD_WIDTH) f.

(** The cell at column [x], row [y], for coordinates inside the field. *)
Definition cell (f : Field) (x y : Z) : option Z :=
  row ← f !! Z.to_nat y; row !! Z.to_nat x.

Definition in_field (x y : Z) : Prop :=
  0 ≤ x < FIELD_WIDTH ∧ 0 ≤ y < FIELD_HEIGHT.

(** The piece [k] under rotation [r] covers local cell [(px, py)]. *)
Definition occupies (k r px py : Z) : Prop := piece_cell k r px py = Some true.

(** Every covered sub-cell of the placement is inside the field and on
    an empty cell. *)
Definition placement_free (f : Field) (k r x y : Z) : Prop :=
  ∀ px py, 0 ≤ px < 4 → 0 ≤ py < 4 → occupies k r px py →
    in_field (x + px) (y + py) ∧ cell f (x + px) (y + py) = Some 0.

(** Border positions: column 0, column [FIELD_WIDTH-1], row [FIELD_HEIGHT-1]. *)
Definition is_border (x y : Z) : Prop :=
  x = 0 ∨ x = FIELD_WIDTH - 1 ∨ y = FIELD_HEIGHT - 1.

Definition has_border (f : Field) : Prop :=
  ∀ x y, in_field x y → is_border x y → cell f x y = Some 9.

(** *** Line clearing, in the words of the specification *)

Definition cell_filled (row : list Z) (x : Z) : bool :=
  match row !! Z.to_nat x with
  | Some c => negb (c =? 0)
  | None => false
  end.

(** A row is full iff every interior cell, columns [1 .. FIELD_WIDTH-2],
    is non-empty. *)
Definition full_row (row : list Z) : bool :=
  forallb (cell_filled row) (seqZ 1 (FIELD_WIDTH - 2)).

(** A freshly initialised row: interior empty, both ends Border. *)
Definition fresh_row : list Z :=
  9 :: replicate (Z.to_nat (FIELD_WIDTH - 2)) 0 ++ [9].

(** Rows above the bottom border row, and the number of full ones. *)
Definition playable_rows (f : Field) : Field := take (Z.to_nat (FIELD_HEIGHT - 1)) f.
Definition bottom_rows (f : Field) : Field := drop (Z.to_nat (FIELD_HEIGHT - 1)) f.
Definition full_count (f : Field) : nat :=
  length (filter (λ row, full_row row = true) (playable_rows f)).

(** Remove every full row above the bottom border row and put as many
    fresh rows on top. *)
Definition clear_full_lines_spec (f : Field) : Field :=
  replicate (full_count f) fresh_row ++
  filter (λ row, full_row row = false) (playable_rows f) ++
  bottom_rows f.

(** The rows collected by the scan of the first [n] rows, bottom-up. *)
Fixpoint full_indices (f : Field) (n : nat) : list Z :=
  match n with
  | O => []
  | S n' =>
    match f !! n' with
    | Some row => if full_row row then Z.of_nat n' :: full_indices f n'
                  else full_indices f n'
    | None => full_indices f n'
    end
  end.

(** Points added for [k] lines cleared by one lock. *)
Definition line_bonus (k : nat) : Z :=
  match k with
  | O => 0
  | _ => Z.shiftl 1 (Z.of_nat k) * 100
  end.

(** Ticks per gravity step once the [count]-th piece has locked. *)
Definition speed_after (count speed : Z) : Z :=
  if decide (count mod 10 = 0 ∧ 10 < speed) then speed - 1 else speed.

(** What every operation keeps true of the session state. *)
Definition state_ok (s : State) : Prop :=
  wf_field (field s) ∧ has_border (field s) ∧ valid_kind (current_piece s) ∧
  (game_over s = false →
   fits_at s (current_rotation s) (current_x s) (current_y s) = Some true).

(** ** Rendering *)

Definition BLOCK_SIZE : Z := 25.

Definition COLORS : list string :=
  [ "#1E1E1E"; "cyan"; "red"; "green"; "yellow"; "orange"; "blue"; "purple";
    "white"; "#555555" ]%string.

(** The double-quote character of the SVG attributes. *)
Definition dq : string := String "034"%char EmptyString.

(** The f-string of one [<rect ... />] element. *)
Definition svg_rect (x y : Z) (color : string) : string :=
  "<rect x=" +:+ dq +:+ pretty (x * BLOCK_SIZE) +:+ dq +:+
  " y=" +:+ dq +:+ pretty (y * BLOCK_SIZE) +:+ dq +:+ " " +:+
  "width=" +:+ dq +:+ pretty BLOCK_SIZE +:+ dq +:+
  " height=" +:+ dq +:+ pretty BLOCK_SIZE +:+ dq +:+ " " +:+
  "fill=" +:+ dq +:+ color +:+ dq +:+
  " stroke=" +:+ dq +:+ "black" +:+ dq +:+
  " stroke-width=" +:+ dq +:+ "1" +:+ dq +:+ " />".

(** [for y in range(FIELD_HEIGHT): for x in range(FIELD_WIDTH):] *)
Definition board_cells : list (Z * Z) :=
  y ← py_range FIELD_HEIGHT; x ← py_range FIELD_WIDTH; [(x, y)].

(** The rectangles of the field, in the order they are appended. *)
Fixpoint draw_field (field : Field) (cells : list (Z * Z)) : option (list string) :=
  match cells with
  | [] => Some []
  | (x, y) :: rest =>
    row ← py_getitem field y;
    color_index ← py_getitem row x;
    color ← py_getitem COLORS color_index;
    parts ← draw_field field rest;
    Some (svg_rect x y color :: parts)
  end.

(** The rectangles of the current piece. *)
Fixpoint draw_piece (piece rot x_pos y_pos : Z) (color : string)
  (cells : list (Z * Z)) : option (list string) :=
  match cells with
  | [] => Some []
  | (px, py) :: rest =>
    occ ← piece_cell piece rot px py;
    parts ← draw_piece piece rot x_pos y_pos color rest;
    Some (if occ : bool
          then svg_rect (x_pos + px) (y_pos + py) color :: parts
          else parts)
  end.

(** The list [svg_parts] when the loops of [draw_board_svg] are done. *)
Definition svg_parts (s : State) : option (list string) :=
  board ← draw_field (field s) board_cells;
  color ← py_getitem COLORS (current_piece s + 1);
  piece ← draw_piece (current_piece s) (current_rotation s)
                     (current_x s) (current_y s) color footprint;
  Some (board ++ piece).

Definition draw_board_svg (s : State) : option string :=
  let width := FIELD_WIDTH * BLOCK_SIZE in
  let height := FIELD_HEIGHT * BLOCK_SIZE in
  parts ← svg_parts s;
  background ← py_getitem COLORS 0;
  Some ("<svg width=" +:+ dq +:+ pretty width +:+ dq +:+
        " height=" +:+ dq +:+ pretty height +:+ dq +:+
        " style=" +:+ dq +:+ "background-color:" +:+ background +:+
        ";border: 2px solid grey;" +:+ dq +:+ ">" +:+
        String.concat "" parts +:+ "</svg>").

(** One execution of the script with the rendering of the board, which
    comes between the game-over guard and the game loop. *)
Definition script_run_render (restart : bool) (k0 k : Z) (ss : Session)
  : option Session :=
  s ← initialize_game k0 ss;
  if game_over s then
    if restart then Some None else Some (Some s)
  else
    _ ← draw_board_svg s;
    s' ← game_loop k s; Some (Some s').

(** ** Further vocabulary *)

(** Values that index [COLORS]: empty, a piece, or border. *)
Definition color_index_ok (c : Z) : Prop := 0 ≤ c ≤ 7 ∨ c = 9.

Definition cells_valid (f : Field) : Prop :=
  ∀ x y c, 0 ≤ x → 0 ≤ y → cell f x y = Some c → color_index_ok c.

(** The local cells a piece covers, in loop order. *)
Definition covered_cells (k r : Z) : list (Z * Z) :=
  filter (λ c, piece_cell k r c.1 c.2 = Some true) footprint.

(** * Proofs *)

(** ** Python indexing *)

Section py_seq.
Context {A : Type}.
Implicit Types (l : list A) (i : Z).

Lemma py_norm_nonneg n i : 0 ≤ i < Z.of_nat n → py_norm n i = Some (Z.to_nat i).
Proof. intros Hi. unfold py_norm. by rewrite bool_decide_eq_true_2. Qed.

Lemma py_getitem_nonneg l i : 0 ≤ i → py_getitem l i = l !! Z.to_nat i.
Proof.
  intros Hi. unfold py_getitem, py_norm.
  repeat case_bool_decide; simpl; try done; try lia.
  symmetry. apply lookup_ge_None. lia.
Qed.

Lemma py_getitem_is_Some l i :
  0 ≤ i < Z.of_nat (length l) → is_Some (py_getitem l i).
Proof.
  intros Hi. rewrite py_getitem_nonneg by lia.
  apply lookup_lt_is_Some. lia.
Qed.

Lemma py_setitem_nonneg l i v :
  0 ≤ i < Z.of_nat (length l) → py_setitem l i v = Some (<[Z.to_nat i := v]> l).
Proof. intros Hi. unfold py_setitem. by rewrite py_norm_nonneg. Qed.

Lemma py_pop_nonneg l i :
  0 ≤ i < Z.of_nat (length l) → py_pop l i = Some (delete (Z.to_nat i) l).
Proof. intros Hi. unfold py_pop. by rewrite py_norm_nonneg. Qed.
End py_seq.

(** ** Geometry *)

Lemma rotate_mod px py r : rotate px py (r mod 4) = rotate px py r.
Proof. unfold rotate. by rewrite Z.mod_mod. Qed.

Lemma rotate_range px py r :
  0 ≤ px < 4 → 0 ≤ py < 4 → 0 ≤ rotate px py r < 16.
Proof.
  intros Hx Hy. unfold rotate.
  pose proof (Z.mod_pos_bound r 4 ltac:(lia)).
  repeat (case_match; [lia|]). lia.
Qed.

Lemma tetromino_lookup k :
  valid_kind k →
  ∃ pat, py_getitem tetromino k = Some pat ∧
         length (list_ascii_of_string pat) = 16%nat.
Proof.
  intros Hk. unfold valid_kind in Hk.
  assert (k = 0 ∨ k = 1 ∨ k = 2 ∨ k = 3 ∨ k = 4 ∨ k = 5 ∨ k = 6) as Hcases by lia.
  destruct_or!; subst k; eexists; (split; [reflexivity|reflexivity]).
Qed.

Lemma piece_cell_is_Some k r px py :
  valid_kind k → 0 ≤ px < 4 → 0 ≤ py < 4 → is_Some (piece_cell k r px py).
Proof.
  intros Hk Hx Hy. unfold piece_cell.
  destruct (tetromino_lookup k Hk) as (pat & -> & Hlen). simpl.
  destruct (py_getitem_is_Some (list_ascii_of_string pat) (rotate px py r)) as [ch ->].
  { rewrite Hlen. pose proof (rotate_range px py r Hx Hy). lia. }
  by eexists.
Qed.

Lemma elem_of_footprint px py :
  (px, py) ∈ footprint ↔ 0 ≤ px < 4 ∧ 0 ≤ py < 4.
Proof.
  split.
  - intros H. vm_compute in H.
    repeat (apply elem_of_cons in H as [[= -> ->]|H]; [lia|]).
    by apply elem_of_nil in H.
  - intros [Hx Hy].
    assert (px = 0 ∨ px = 1 ∨ px = 2 ∨ px = 3) as Hpx by lia.
    assert (py = 0 ∨ py = 1 ∨ py = 2 ∨ py = 3) as Hpy by lia.
    destruct_or!; subst; vm_compute; repeat constructor.
Qed.

(** ** The collision test *)

Lemma wf_field_row f y row :
  wf_field f → f !! y = Some row → length row = Z.to_nat FIELD_WIDTH.
Proof.
  intros [_ Hrows] Hy. rewrite Forall_lookup in Hrows. by eapply Hrows.
Qed.

Lemma wf_field_cell f x y :
  wf_field f → in_field x y →
  ∃ row c, f !! Z.to_nat y = Some row ∧ row !! Z.to_nat x = Some c.
Proof.
  intros Hwf [Hx Hy].
  destruct (lookup_lt_is_Some_2 f (Z.to_nat y)) as [row Hrow].
  { destruct Hwf as [-> _]. lia. }
  destruct (lookup_lt_is_Some_2 row (Z.to_nat x)) as [c Hc].
  { rewrite (wf_field_row _ _ _ Hwf Hrow). lia. }
  eauto.
Qed.

Lemma in_field_test x y :
  (x <? 0) || (x >=? FIELD_WIDTH) || (y <? 0) || (y >=? FIELD_HEIGHT) = false
  ↔ in_field x y.
Proof. unfold in_field. rewrite !orb_false_iff. lia. Qed.

Lemma fit_cells_spec f k r x y cells :
  wf_field f → valid_kind k →
  (∀ px py, (px, py) ∈ cells → 0 ≤ px < 4 ∧ 0 ≤ py < 4) →
  ∃ b, fit_cells f k r x y cells = Some b ∧
       (b = true ↔
        ∀ px py, (px, py) ∈ cells → occupies k r px py →
          in_field (x + px) (y + py) ∧ cell f (x + px) (y + py) = Some 0).
Proof.
  intros Hwf Hk. induction cells as [|[px py] rest IH]; intros Hin.
  - exists true. split; [done|]. split; [|done].
    intros _ ?? H. by apply elem_of_nil in H.
  - destruct IH as (b & Hb & Hspec).
    { intros ?? H. apply Hin. by right. }
    destruct (Hin px py) as [Hx Hy]; [left|].
    destruct (piece_cell_is_Some k r px py Hk Hx Hy) as [occ Hocc].
    simpl. rewrite Hocc. simpl. destruct occ.
    + destruct ((x + px <? 0) || (x + px >=? FIELD_WIDTH) ||
                (y + py <? 0) || (y + py >=? FIELD_HEIGHT)) eqn:Hbnd.
      * exists false. split; [done|]. split; [done|]. intros H.
        destruct (H px py) as [Hf _]; [left|done|].
        apply in_field_test in Hf. congruence.
      * apply in_field_test in Hbnd.
        destruct (wf_field_cell f _ _ Hwf Hbnd) as (row & c & Hrow & Hc).
        destruct Hbnd as [Hbx Hby].
        rewrite (py_getitem_nonneg f) by lia. rewrite Hrow. simpl.
        rewrite (py_getitem_nonneg row) by lia. rewrite Hc. simpl.
        assert (cell f (x + px) (y + py) = Some c) as Hcell.
        { unfold cell. by rewrite Hrow. }
        destruct (Z.eqb_spec c 0) as [->|Hne]; simpl.
        -- exists b. split; [done|]. rewrite Hspec. split.
           ++ intros H qx qy [[= -> ->]|Hq]%elem_of_cons Ho; [done|by apply H].
           ++ intros H qx qy Hq. apply H. by right.
        -- exists false. split; [done|]. split; [done|]. intros H.
           destruct (H px py) as [_ Hc0]; [left|done|]. congruence.
    + exists b. split; [done|]. rewrite Hspec. split.
      * intros H qx qy [[= -> ->]|Hq]%elem_of_cons Ho; [|by apply H].
        unfold occupies in Ho. congruence.
      * intros H qx qy Hq. apply H. by right.
Qed.

Lemma fit_cells_false f k r x y cells :
  fit_cells f k r x y cells = Some false →
  ∃ px py, (px, py) ∈ cells ∧ occupies k r px py ∧
    (¬ in_field (x + px) (y + py) ∨
     ∃ c, cell f (x + px) (y + py) = Some c ∧ c ≠ 0).
Proof.
  induction cells as [|[px py] rest IH]; simpl; [done|].
  intros H.
  destruct (piece_cell k r px py) as [occ|] eqn:Hocc; simpl in H; [|done].
  assert (fit_cells f k r x y rest = Some false →
          ∃ qx qy, (qx, qy) ∈ (px, py) :: rest ∧ occupies k r qx qy ∧
            (¬ in_field (x + qx) (y + qy) ∨
             ∃ c, cell f (x + qx) (y + qy) = Some c ∧ c ≠ 0)) as Hrest.
  { intros (qx & qy & Hq & Hrest)%IH. exists qx, qy. split; [by right|done]. }
  destruct occ; [|by apply Hrest].
  destruct ((x + px <? 0) || (x + px >=? FIELD_WIDTH) ||
            (y + py <? 0) || (y + py >=? FIELD_HEIGHT)) eqn:Hbnd.
  - exists px, py. split; [left|]. split; [done|]. left.
    intros Hf%in_field_test. congruence.
  - apply in_field_test in Hbnd as Hf. destruct Hf as [Hbx Hby].
    rewrite (py_getitem_nonneg f) in H by lia.
    destruct (f !! Z.to_nat (y + py)) as [row|] eqn:Hrow; simpl in H; [|done].
    rewrite (py_getitem_nonneg row) in H by lia.
    destruct (row !! Z.to_nat (x + px)) as [c|] eqn:Hc; simpl in H; [|done].
    destruct (Z.eqb_spec c 0) as [->|Hne]; simpl in H; [by apply Hrest|].
    exists px, py. split; [left|]. split; [done|]. right.
    exists c. split; [|done]. unfold cell. by rewrite Hrow.
Qed.

Lemma does_piece_fit_total f k r x y :
  wf_field f → valid_kind k → is_Some (does_piece_fit f k r x y).
Proof.
  intros Hwf Hk.
  destruct (fit_cells_spec f k r x y footprint Hwf Hk) as (b & Hb & _).
  { intros px py. by rewrite elem_of_footprint. }
  by exists b.
Qed.

(** C1. On every field of the declared dimensions, for every piece
    kind, rotation and origin, [does_piece_fit] returns a boolean, and
    that boolean is [true] exactly when every sub-cell of the 4x4
    footprint covered by the piece lands inside [0,12) x [0,18) on an
    empty cell; so it is [false] as soon as one covered sub-cell is out
    of bounds or on a non-empty cell. *)
Theorem does_piece_fit_spec f k r x y :
  wf_field f → valid_kind k →
  ∃ b, does_piece_fit f k r x y = Some b ∧
       (b = true ↔ placement_free f k r x y) ∧
       (b = false ↔
        ∃ px py, 0 ≤ px < 4 ∧ 0 ≤ py < 4 ∧ occupies k r px py ∧
          (¬ in_field (x + px) (y + py) ∨
           ∃ c, cell f (x + px) (y + py) = Some c ∧ c ≠ 0)).
Proof.
  intros Hwf Hk.
  destruct (fit_cells_spec f k r x y footprint Hwf Hk) as (b & Hb & Hspec).
  { intros px py. by rewrite elem_of_footprint. }
  assert (b = true ↔ placement_free f k r x y) as Htrue.
  { rewrite Hspec. unfold placement_free. split.
    - intros H px py Hx Hy. apply H. by apply elem_of_footprint.
    - intros H px py [Hx Hy]%elem_of_footprint. by apply H. }
  exists b. split; [done|]. split; [done|]. split.
  - intros ->. destruct (fit_cells_false _ _ _ _ _ _ Hb)
      as (px & py & [Hx Hy]%elem_of_footprint & Ho & Hbad).
    by exists px, py.
  - intros (px & py & Hx & Hy & Ho & Hbad).
    destruct b; [|done]. exfalso.
    destruct (proj1 Htrue eq_refl px py Hx Hy Ho) as [Hf Hc].
    destruct Hbad as [Hbad|(c & Hc' & Hne)]; [done|congruence].
Qed.

(** ** Rotation index and occupancy *)

Lemma list_ascii_lookup (pat : string) (n : nat) :
  list_ascii_of_string pat !! n = String.get n pat.
Proof.
  revert n. induction pat as [|c pat IH]; intros [|n]; simpl; auto.
Qed.

Lemma list_ascii_length (pat : string) :
  length (list_ascii_of_string pat) = String.length pat.
Proof. induction pat; simpl; congruence. Qed.

Lemma rotate_cases px py r :
  (r mod 4 = 0 ∧ rotate px py r = py * 4 + px) ∨
  (r mod 4 = 1 ∧ rotate px py r = 12 + py - px * 4) ∨
  (r mod 4 = 2 ∧ rotate px py r = 15 - py * 4 - px) ∨
  (r mod 4 = 3 ∧ rotate px py r = 3 - py + px * 4).
Proof.
  unfold rotate. pose proof (Z.mod_pos_bound r 4 ltac:(lia)).
  repeat case_match; lia.
Qed.

(** C2. [rotate] computes the analytic index formula selected by
    [r mod 4] (for every integer [r], negative ones included), and the
    piece of kind [k] covers a local cell exactly when the character of
    the kind's 16-character pattern at that index is ['X']. *)
Theorem rotate_formula px py r :
  (r mod 4 = 0 → rotate px py r = py * 4 + px) ∧
  (r mod 4 = 1 → rotate px py r = 12 + py - px * 4) ∧
  (r mod 4 = 2 → rotate px py r = 15 - py * 4 - px) ∧
  (r mod 4 = 3 → rotate px py r = 3 - py + px * 4) ∧
  (∀ k, valid_kind k → 0 ≤ px < 4 → 0 ≤ py < 4 →
     ∃ pat, tetromino !! Z.to_nat k = Some pat ∧
            String.length pat = 16%nat ∧
            (occupies k r px py ↔
             String.get (Z.to_nat (rotate px py r)) pat = Some "X"%char)).
Proof.
  pose proof (rotate_cases px py r) as Hc.
  do 4 (split; [intros; lia|]).
  intros k Hk Hx Hy.
  destruct (tetromino_lookup k Hk) as (pat & Hpat & Hlen).
  exists pat. unfold valid_kind in Hk.
  split; [by rewrite py_getitem_nonneg in Hpat by lia|].
  split; [by rewrite <- list_ascii_length|].
  unfold occupies, piece_cell. rewrite Hpat. simpl.
  pose proof (rotate_range px py r Hx Hy) as Hr.
  rewrite py_getitem_nonneg by lia. rewrite list_ascii_lookup.
  destruct (String.get _ pat) as [ch|]; simpl.
  - destruct (Ascii.eqb_spec ch "X"%char); split; congruence.
  - split; congruence.
Qed.

Lemma rotate_formula_witness :
  rotate 1 2 (-3) = 12 + 2 - 1 * 4 ∧
  ∃ pat, tetromino !! Z.to_nat 3 = Some pat ∧
         String.length pat = 16%nat ∧
         (occupies 3 (-3) 1 2 ↔
          String.get (Z.to_nat (rotate 1 2 (-3))) pat = Some "X"%char).
Proof.
  destruct (rotate_formula 1 2 (-3)) as (_ & H1 & _ & _ & Hocc).
  split.
  - apply H1. reflexivity.
  - apply Hocc; unfold valid_kind; lia.
Defined.

(** ** Line clearing *)

Lemma py_range_down_S (n : nat) :
  py_range_down (Z.of_nat n) = Z.of_nat n :: reverse (seqZ 0 (Z.of_nat n)).
Proof.
  unfold py_range_down.
  replace (Z.of_nat n + 1) with (Z.of_nat (S n)) by lia.
  by rewrite seqZ_S, reverse_snoc.
Qed.

Lemma is_line_spec f y row xs :
  0 ≤ y → f !! Z.to_nat y = Some row →
  Forall (λ x, 0 ≤ x < Z.of_nat (length row)) xs →
  is_line f y xs = Some (forallb (cell_filled row) xs).
Proof.
  intros Hy Hrow. induction 1 as [|x xs Hx _ IH]; simpl; [done|].
  rewrite (py_getitem_nonneg f) by done. rewrite Hrow. simpl.
  rewrite (py_getitem_nonneg row) by lia.
  destruct (lookup_lt_is_Some_2 row (Z.to_nat x)) as [c Hc]; [lia|].
  unfold cell_filled at 1. rewrite Hc. simpl.
  by destruct (c =? 0).
Qed.

Lemma is_line_full_row f y row :
  0 ≤ y → f !! Z.to_nat y = Some row → length row = Z.to_nat FIELD_WIDTH →
  is_line f y (py_range2 1 (FIELD_WIDTH - 1)) = Some (full_row row).
Proof.
  intros Hy Hrow Hlen. apply is_line_spec; [done..|].
  rewrite Hlen. apply Forall_forall. intros x Hx.
  apply elem_of_seqZ in Hx. unfold FIELD_WIDTH in *. lia.
Qed.

Lemma lines_to_clear_spec f (n : nat) :
  (n ≤ length f)%nat →
  Forall (λ row, length row = Z.to_nat FIELD_WIDTH) f →
  lines_to_clear f (reverse (seqZ 0 (Z.of_nat n))) = Some (full_indices f n).
Proof.
  intros Hn Hrows. induction n as [|n IH]; [done|].
  rewrite seqZ_S, reverse_snoc. cbn [lines_to_clear]. rewrite Z.add_0_l.
  destruct (lookup_lt_is_Some_2 f n) as [row Hrow]; [lia|].
  rewrite (is_line_full_row f _ row); [|lia|by rewrite Nat2Z.id|].
  2:{ rewrite Forall_lookup in Hrows. by eapply Hrows. }
  rewrite IH by lia. cbn. by rewrite Hrow.
Qed.

Lemma pop_lines_spec f (n : nat) rest :
  (n ≤ length f)%nat →
  pop_lines (take n f ++ rest) (full_indices f n)
  = Some (filter (λ row, full_row row = false) (take n f) ++ rest).
Proof.
  revert rest. induction n as [|n IH]; intros rest Hn; [done|].
  destruct (lookup_lt_is_Some_2 f n) as [row Hrow]; [lia|].
  rewrite (take_S_r _ _ _ Hrow). simpl. rewrite Hrow.
  rewrite filter_app, filter_cons, filter_nil.
  assert (length (take n f) = n) as Hlen by (rewrite length_take; lia).
  destruct (full_row row) eqn:Hfull.
  - simpl. rewrite py_pop_nonneg by (rewrite !length_app, Hlen; simpl; lia).
    simpl. rewrite Nat2Z.id, <- (assoc_L (++)).
    replace (delete n (take n f ++ [row] ++ rest)) with (take n f ++ rest).
    + rewrite IH by lia. by rewrite app_nil_r.
    + pose proof (delete_middle (take n f) rest row) as Hd.
      by rewrite Hlen in Hd.
  - rewrite <- (assoc_L (++)). rewrite IH by lia.
    rewrite decide_True by done. by rewrite <- (assoc_L (++)).
Qed.

Lemma full_indices_length f (n : nat) :
  (n ≤ length f)%nat →
  length (full_indices f n) = length (filter (λ row, full_row row = true) (take n f)).
Proof.
  induction n as [|n IH]; intros Hn; [done|].
  destruct (lookup_lt_is_Some_2 f n) as [row Hrow]; [lia|].
  rewrite (take_S_r _ _ _ Hrow). simpl. rewrite Hrow.
  rewrite filter_app, filter_cons, filter_nil, length_app.
  destruct (full_row row) eqn:Hfull; simpl; rewrite IH by lia; lia.
Qed.

Lemma replicate_snoc_cons {A} (n : nat) (x : A) (l : list A) :
  replicate n x ++ x :: l = x :: replicate n x ++ l.
Proof. induction n as [|n IH]; simpl; [done|]. by rewrite IH. Qed.

Lemma insert_rows_spec (n : nat) f :
  insert_rows n f = replicate n new_row ++ f.
Proof.
  revert f. induction n as [|n IH]; intros f; [done|].
  simpl. by rewrite IH, replicate_snoc_cons.
Qed.

Lemma new_row_fresh : new_row = fresh_row.
Proof. reflexivity. Qed.

Lemma filter_none_full (l : Field) :
  length (filter (λ row, full_row row = true) l) = 0%nat →
  filter (λ row, full_row row = false) l = l.
Proof.
  induction l as [|row l IH]; [done|].
  rewrite !filter_cons. destruct (full_row row) eqn:Hfull.
  - rewrite decide_True by done. simpl. lia.
  - rewrite decide_False by done. rewrite decide_True by done.
    intros H. by rewrite IH.
Qed.

Section filter_bool.
Context {A : Type} (p : A → bool).

Lemma filter_bool_all (l : list A) :
  Forall (λ a, p a = false) l →
  filter (λ a, p a = false) l = l ∧ filter (λ a, p a = true) l = [].
Proof.
  induction 1 as [|a l Ha _ [IH1 IH2]]; [done|].
  rewrite !filter_cons, IH1, IH2.
  rewrite decide_True by done. by rewrite decide_False by congruence.
Qed.

Lemma filter_bool_length (l : list A) :
  (length (filter (λ a, p a = true) l) + length (filter (λ a, p a = false) l)
   = length l)%nat.
Proof.
  induction l as [|a l IH]; [done|].
  rewrite !filter_cons. destruct (p a); simpl; lia.
Qed.
End filter_bool.

Lemma state_eta s :
  mkState (field s) (score s) (game_over s) (speed s) (speed_counter s)
          (piece_count s) (current_piece s) (current_rotation s)
          (current_x s) (current_y s) = s.
Proof. by destruct s. Qed.

Lemma check_lines_spec s :
  wf_field (field s) →
  check_lines s
  = Some (set_field (clear_full_lines_spec (field s))
            (set_score (score s + line_bonus (full_count (field s))) s)).
Proof.
  intros [Hlen Hrows]. unfold check_lines.
  change (length (field s) = 18%nat) in Hlen.
  change (py_range_down (FIELD_HEIGHT - 2)) with (reverse (seqZ 0 (Z.of_nat 17))).
  rewrite lines_to_clear_spec by (done || lia).
  cbn [mbind option_bind].
  pose proof (full_indices_length (field s) 17 ltac:(lia)) as Hk.
  change (filter _ (take 17 (field s))) with
    (filter (λ row, full_row row = true) (playable_rows (field s))) in Hk.
  fold (full_count (field s)) in Hk.
  destruct (full_indices (field s) 17) as [|y ls] eqn:Hls.
  - simpl in Hk. rewrite <- Hk. unfold clear_full_lines_spec.
    rewrite <- Hk. unfold full_count in Hk. symmetry in Hk.
    rewrite (filter_none_full _ Hk). unfold playable_rows, bottom_rows.
    simpl. rewrite take_drop, Z.add_0_r. unfold set_field, set_score. simpl.
    by rewrite state_eta.
  - assert (full_count (field s) ≠ 0%nat) as Hpos by (simpl in Hk; lia).
    rewrite <- Hls in Hk |- *. cbn [field set_score].
    rewrite <- (take_drop 17 (field s)) at 1.
    rewrite pop_lines_spec by lia.
    cbn [mbind option_bind]. rewrite insert_rows_spec, new_row_fresh, Hk.
    unfold clear_full_lines_spec, line_bonus.
    by destruct (full_count (field s)).
Qed.

Lemma full_row_iff row :
  full_row row = true ↔
  ∀ x, 1 ≤ x ≤ FIELD_WIDTH - 2 → ∃ c, row !! Z.to_nat x = Some c ∧ c ≠ 0.
Proof.
  unfold full_row. rewrite forallb_forall. split.
  - intros H x Hx. specialize (H x). unfold cell_filled in H.
    destruct (row !! Z.to_nat x) as [c|].
    + exists c. split; [done|]. intros ->. discriminate H.
      apply list_elem_of_In, elem_of_seqZ. lia.
    + discriminate H. apply list_elem_of_In, elem_of_seqZ. lia.
  - intros H x Hx%list_elem_of_In%elem_of_seqZ.
    destruct (H x) as (c & Hc & Hne); [lia|].
    unfold cell_filled. rewrite Hc. by destruct (Z.eqb_spec c 0).
Qed.

Lemma playable_bottom_lengths f :
  wf_field f →
  length (playable_rows f) = 17%nat ∧ length (bottom_rows f) = 1%nat.
Proof.
  intros [Hlen _]. change (length f = 18%nat) in Hlen.
  unfold playable_rows, bottom_rows. rewrite length_take, length_drop, Hlen.
  split; reflexivity.
Qed.

Lemma clear_spec_prefix_length f :
  wf_field f →
  length (replicate (full_count f) fresh_row ++
          filter (λ row, full_row row = false) (playable_rows f)) = 17%nat.
Proof.
  intros Hwf. destruct (playable_bottom_lengths f Hwf) as [Hp _].
  rewrite length_app, length_replicate. unfold full_count.
  by rewrite filter_bool_length.
Qed.

Lemma clear_spec_wf f : wf_field f → wf_field (clear_full_lines_spec f).
Proof.
  intros Hwf. split.
  - unfold clear_full_lines_spec. rewrite (assoc_L (++)), length_app.
    rewrite clear_spec_prefix_length by done.
    by destruct (playable_bottom_lengths f Hwf) as [_ ->].
  - destruct Hwf as [_ Hrows]. unfold clear_full_lines_spec.
    rewrite !Forall_app. split_and!.
    + by apply Forall_replicate.
    + apply Forall_forall. intros row [_ Hrow]%list_elem_of_filter.
      apply (Forall_take _ (Z.to_nat (FIELD_HEIGHT - 1))) in Hrows.
      rewrite Forall_forall in Hrows. by apply Hrows.
    + by apply Forall_drop.
Qed.

Lemma clear_spec_bottom f :
  wf_field f → clear_full_lines_spec f !! 17%nat = f !! 17%nat.
Proof.
  intros Hwf. unfold clear_full_lines_spec. rewrite (assoc_L (++)).
  rewrite lookup_app_r; rewrite clear_spec_prefix_length by done; [|lia].
  unfold bottom_rows. rewrite lookup_drop. f_equal.
Qed.

Lemma drop_take_drop {A} (l : list A) (a b : nat) :
  (a ≤ b)%nat → drop a (take b l) ++ drop b l = drop a l.
Proof.
  intros Hab. rewrite <- (take_drop b l) at 3.
  destruct (decide (b ≤ length l)%nat) as [Hb|Hb].
  - rewrite drop_app_le; [done|]. rewrite length_take. lia.
  - rewrite (drop_ge l b) by lia. rewrite !app_nil_r.
    by rewrite take_ge by lia.
Qed.

(** With exactly one full row [y0] above the bottom border row, the
    result is a fresh row followed by the field without row [y0]. *)
Lemma clear_spec_single f (y0 : nat) :
  wf_field f → (y0 < 17)%nat →
  (∀ y row, (y < 17)%nat → f !! y = Some row →
     (full_row row = true ↔ y = y0)) →
  clear_full_lines_spec f = fresh_row :: take y0 f ++ drop (S y0) f.
Proof.
  intros Hwf Hy0 Hone.
  destruct (lookup_lt_is_Some_2 f y0) as [row0 Hrow0].
  { destruct Hwf as [Hlen _]. change (length f = 18%nat) in Hlen. lia. }
  assert (playable_rows f = take y0 f ++ row0 :: drop (S y0) (take 17 f)) as Hsplit.
  { unfold playable_rows. change (Z.to_nat (FIELD_HEIGHT - 1)) with 17%nat.
    pose proof (take_drop_middle (take 17 f) y0 row0) as Hm.
    rewrite take_take, Nat.min_l in Hm by lia. symmetry. apply Hm.
    by rewrite lookup_take_lt by lia. }
  assert (Forall (λ row, full_row row = false) (take y0 f)) as Hbefore.
  { apply Forall_lookup. intros y row Hy.
    apply lookup_take_Some in Hy as [Hy Hlt].
    destruct (full_row row) eqn:Hfull; [|done].
    apply (Hone y row) in Hfull; [lia|lia|done]. }
  assert (Forall (λ row, full_row row = false) (drop (S y0) (take 17 f))) as Hafter.
  { apply Forall_lookup. intros y row Hy.
    rewrite lookup_drop in Hy. apply lookup_take_Some in Hy as [Hy Hlt].
    destruct (full_row row) eqn:Hfull; [|done].
    apply (Hone (S y0 + y)%nat row) in Hfull; [lia|lia|done]. }
  assert (full_row row0 = true) as Hfull0 by (by apply (Hone y0 row0)).
  destruct (filter_bool_all full_row _ Hbefore) as [Hb1 Hb2].
  destruct (filter_bool_all full_row _ Hafter) as [Ha1 Ha2].
  unfold clear_full_lines_spec, full_count. rewrite Hsplit.
  rewrite !filter_app, !filter_cons, Hb1, Hb2, Ha1, Ha2.
  rewrite decide_True by done. rewrite decide_False by congruence.
  simpl. f_equal. rewrite <- (assoc_L (++)). f_equal.
  unfold bottom_rows. change (Z.to_nat (FIELD_HEIGHT - 1)) with 17%nat.
  apply drop_take_drop. lia.
Qed.

(** C4. On a field of the declared dimensions [check_lines] succeeds and
    leaves exactly the field described by the specification: a row above
    the bottom border row is full iff every interior cell (columns 1..10)
    is non-empty; all full rows are removed together and as many fresh
    rows (Border, ten empty cells, Border) are put on top; everything
    except field and score is untouched; the height stays 18; the bottom
    border row stays in place; and with exactly one full row [y0] the
    rows above it move down by one while the rows below it stay. *)
Theorem check_lines_clears_full_rows s :
  wf_field (field s) →
  ∃ s', check_lines s = Some s' ∧
    field s' = clear_full_lines_spec (field s) ∧
    s' = set_field (field s') (set_score (score s') s) ∧
    (∀ row, full_row row = true ↔
            ∀ x, 1 ≤ x ≤ FIELD_WIDTH - 2 → ∃ c, row !! Z.to_nat x = Some c ∧ c ≠ 0) ∧
    fresh_row = [9; 0; 0; 0; 0; 0; 0; 0; 0; 0; 0; 9] ∧
    length (field s') = length (field s) ∧
    wf_field (field s') ∧
    field s' !! 17%nat = field s !! 17%nat ∧
    (∀ y0 : nat, (y0 < 17)%nat →
       (∀ y row, (y < 17)%nat → field s !! y = Some row →
          (full_row row = true ↔ y = y0)) →
       field s' !! 0%nat = Some fresh_row ∧
       (∀ y, (y < y0)%nat → field s' !! S y = field s !! y) ∧
       (∀ y, (y0 < y)%nat → field s' !! y = field s !! y)).
Proof.
  intros Hwf. eexists. split; [by apply check_lines_spec|]. cbn [field set_field].
  split; [done|]. split; [done|]. split; [apply full_row_iff|].
  split; [done|].
  pose proof (clear_spec_wf _ Hwf) as Hwf'.
  split; [destruct Hwf as [-> _]; by destruct Hwf' as [-> _]|].
  split; [done|]. split; [by apply clear_spec_bottom|].
  intros y0 Hy0 Hone. rewrite (clear_spec_single _ y0) by done.
  assert (length (take y0 (field s)) = y0) as Hlen.
  { destruct Hwf as [Hlen _]. change (length (field s) = 18%nat) in Hlen.
    rewrite length_take. lia. }
  split; [done|]. split.
  - intros y Hy.
    change ((take y0 (field s) ++ drop (S y0) (field s)) !! y = field s !! y).
    rewrite lookup_app_l by lia. by rewrite lookup_take_lt.
  - intros y Hy. destruct y as [|y]; [lia|].
    change ((take y0 (field s) ++ drop (S y0) (field s)) !! y = field s !! S y).
    rewrite lookup_app_r by lia. rewrite lookup_drop, Hlen. f_equal. lia.
Qed.

(** ** Locking *)

Lemma lock_one f cx cy v :
  wf_field f → in_field cx cy →
  ∃ f', write_cell f cx cy v = Some f' ∧
    wf_field f' ∧
    cell f' cx cy = Some v ∧
    ∀ cx' cy', 0 ≤ cx' → 0 ≤ cy' → ¬ (cx' = cx ∧ cy' = cy) →
      cell f' cx' cy' = cell f cx' cy'.
Proof.
  intros Hwf Hin.
  destruct (wf_field_cell f cx cy Hwf Hin) as (row & c & Hrow & Hc).
  pose proof (wf_field_row _ _ _ Hwf Hrow) as Hlen.
  destruct Hin as [Hx Hy]. destruct Hwf as [Hh Hrows]. unfold write_cell.
  rewrite py_getitem_nonneg by lia. rewrite Hrow. cbn [mbind option_bind].
  rewrite py_setitem_nonneg by lia. cbn [mbind option_bind].
  rewrite py_setitem_nonneg by lia.
  eexists. split; [done|]. split; [|split].
  - split; [by rewrite length_insert|].
    apply Forall_insert; [done|]. by rewrite length_insert.
  - unfold cell. rewrite list_lookup_insert_eq by lia. cbn [mbind option_bind].
    apply list_lookup_insert_eq. lia.
  - intros cx' cy' Hx' Hy' Hne. unfold cell.
    destruct (decide (cy' = cy)) as [->|Hney].
    + rewrite list_lookup_insert_eq by lia. rewrite Hrow. cbn [mbind option_bind].
      apply list_lookup_insert_ne. lia.
    + rewrite list_lookup_insert_ne by lia. done.
Qed.

Lemma lock_cells_spec f k r x y cells :
  wf_field f → valid_kind k →
  (∀ px py, (px, py) ∈ cells → 0 ≤ px < 4 ∧ 0 ≤ py < 4) →
  (∀ px py, (px, py) ∈ cells → occupies k r px py →
     in_field (x + px) (y + py)) →
  ∃ f', lock_cells f k r x y cells = Some f' ∧
    wf_field f' ∧
    (∀ px py, (px, py) ∈ cells → occupies k r px py →
       cell f' (x + px) (y + py) = Some (k + 1)) ∧
    (∀ cx cy, 0 ≤ cx → 0 ≤ cy →
       (∀ px py, (px, py) ∈ cells → occupies k r px py →
          ¬ (cx = x + px ∧ cy = y + py)) →
       cell f' cx cy = cell f cx cy) ∧
    (∀ cx cy, 0 ≤ cx → 0 ≤ cy →
       cell f' cx cy = cell f cx cy ∨ cell f' cx cy = Some (k + 1)).
Proof.
  intros Hwf Hk. revert f Hwf.
  induction cells as [|[px py] rest IH]; intros f Hwf Hrange Hin.
  - exists f. split; [done|]. split; [done|]. split_and!; [|done|by left].
    intros ?? H. by apply elem_of_nil in H.
  - destruct (Hrange px py) as [Hx Hy]; [left|].
    destruct (piece_cell_is_Some k r px py Hk Hx Hy) as [occ Hocc].
    cbn [lock_cells]. rewrite Hocc. cbn [mbind option_bind].
    assert (∀ qx qy, (qx, qy) ∈ rest → 0 ≤ qx < 4 ∧ 0 ≤ qy < 4) as Hrange'.
    { intros ?? H. apply Hrange. by right. }
    assert (∀ qx qy, (qx, qy) ∈ rest → occupies k r qx qy →
              in_field (x + qx) (y + qy)) as Hin'.
    { intros ?? H. apply Hin. by right. }
    destruct occ.
    + destruct (lock_one f (x + px) (y + py) (k + 1) Hwf) as (f1 & -> & Hwf1 & Hset & Hothers).
      { apply Hin; [left|done]. }
      cbn [mbind option_bind].
      destruct (IH f1 Hwf1 Hrange' Hin') as (f' & Hf' & Hwf' & Hcov & Hunch & Hmono).
      exists f'. split; [done|]. split; [done|].
      assert (in_field (x + px) (y + py)) as [Hbx Hby] by (apply Hin; [left|done]).
      split_and!.
      * intros qx qy [[= -> ->]|Hq]%elem_of_cons Ho; [|by apply Hcov].
        destruct (Hmono (x + px) (y + py)) as [Heq|Heq]; [lia|lia| |done].
        by rewrite Heq.
      * intros cx cy Hcx Hcy Hfree. rewrite Hunch; [|done|done|].
        -- apply Hothers; [done|done|]. apply (Hfree px py); [left|done].
        -- intros qx qy Hq. apply Hfree. by right.
      * intros cx cy Hcx Hcy.
        destruct (Hmono cx cy Hcx Hcy) as [Heq|Heq]; [|by right].
        rewrite Heq.
        destruct (decide (cx = x + px ∧ cy = y + py)) as [[-> ->]|Hne].
        -- by right.
        -- left. by apply Hothers.
    + destruct (IH f Hwf Hrange' Hin') as (f' & Hf' & Hwf' & Hcov & Hunch & Hmono).
      exists f'. split; [done|]. split; [done|]. split_and!; [| |done].
      * intros qx qy [[= -> ->]|Hq]%elem_of_cons Ho; [|by apply Hcov].
        unfold occupies in Ho. congruence.
      * intros cx cy Hcx Hcy Hfree. apply Hunch; [done|done|].
        intros qx qy Hq. apply Hfree. by right.
Qed.

(** ** The border *)

Lemma wf_initial_field : wf_field initial_field.
Proof. split; [reflexivity|]. vm_compute. repeat constructor. Qed.

Lemma cell_initial_field x y :
  in_field x y → cell initial_field x y = Some (border_cell x y).
Proof.
  intros [Hx Hy]. unfold cell, initial_field, py_range.
  rewrite list_lookup_fmap, lookup_seqZ_lt by lia. cbn [fmap option_fmap option_map mbind option_bind].
  rewrite list_lookup_fmap, lookup_seqZ_lt by lia. cbn.
  do 2 f_equal; lia.
Qed.

Lemma has_border_initial_field : has_border initial_field.
Proof.
  intros x y Hin Hb. rewrite cell_initial_field by done.
  unfold border_cell. destruct Hb as [->| [->| ->]]; [done| |].
  - rewrite Z.eqb_refl. by rewrite orb_true_r.
  - rewrite Z.eqb_refl. by rewrite orb_true_r.
Qed.

Lemma lock_placement_free f k r x y :
  wf_field f → valid_kind k → placement_free f k r x y →
  ∃ f', lock_cells f k r x y footprint = Some f' ∧
    wf_field f' ∧ (has_border f → has_border f') ∧
    (∀ px py, 0 ≤ px < 4 → 0 ≤ py < 4 → occupies k r px py →
       cell f' (x + px) (y + py) = Some (k + 1)) ∧
    (∀ cx cy, 0 ≤ cx → 0 ≤ cy →
       (∀ px py, 0 ≤ px < 4 → 0 ≤ py < 4 → occupies k r px py →
          ¬ (cx = x + px ∧ cy = y + py)) →
       cell f' cx cy = cell f cx cy).
Proof.
  intros Hwf Hk Hfree.
  destruct (lock_cells_spec f k r x y footprint Hwf Hk)
    as (f' & Hf' & Hwf' & Hcov & Hunch & _).
  { intros px py. by rewrite elem_of_footprint. }
  { intros px py [Hx Hy]%elem_of_footprint Ho. by apply Hfree. }
  assert (∀ cx cy, 0 ≤ cx → 0 ≤ cy →
     (∀ px py, 0 ≤ px < 4 → 0 ≤ py < 4 → occupies k r px py →
        ¬ (cx = x + px ∧ cy = y + py)) →
     cell f' cx cy = cell f cx cy) as Hunch'.
  { intros cx cy Hcx Hcy H. apply Hunch; [done..|].
    intros px py [Hx Hy]%elem_of_footprint. by apply H. }
  exists f'. split; [done|]. split; [done|]. split_and!; [|..|done].
  - intros Hborder cx cy Hin Hb. rewrite <- (Hborder cx cy Hin Hb).
    apply Hunch'; [apply Hin..|].
    intros px py Hx Hy Ho [-> ->].
    destruct (Hfree px py Hx Hy Ho) as [_ Hc].
    rewrite (Hborder _ _ Hin Hb) in Hc. done.
  - intros px py Hx Hy. apply Hcov. by apply elem_of_footprint.
Qed.

(** C10. For local coordinates in [0,4) and any integer rotation,
    [r mod 4] is one of 0..3 (the default branch of [rotate] is never
    taken) and [rotate] lands in [0,16); every pattern has 16
    characters, so the pattern lookup of the collision test and of
    locking succeeds; the collision test returns a boolean on every
    field of the declared dimensions, and locking returns a field
    whenever the placement is free. *)
Theorem rotate_index_in_bounds px py r :
  0 ≤ px < 4 → 0 ≤ py < 4 →
  0 ≤ r mod 4 < 4 ∧
  0 ≤ rotate px py r < 16 ∧
  ∀ k, valid_kind k →
    (∃ pat ch, py_getitem tetromino k = Some pat ∧
       length (list_ascii_of_string pat) = 16%nat ∧
       py_getitem (list_ascii_of_string pat) (rotate px py r) = Some ch ∧
       piece_cell k r px py = Some (Ascii.eqb ch "X"%char)) ∧
    (∀ f x y, wf_field f → is_Some (does_piece_fit f k r x y)) ∧
    (∀ f x y, wf_field f → placement_free f k r x y →
       is_Some (lock_cells f k r x y footprint)).
Proof.
  intros Hx Hy. split; [apply Z.mod_pos_bound; lia|].
  pose proof (rotate_range px py r Hx Hy) as Hr. split; [done|].
  intros k Hk. split; [|split].
  - destruct (tetromino_lookup k Hk) as (pat & Hpat & Hlen).
    destruct (py_getitem_is_Some (list_ascii_of_string pat) (rotate px py r))
      as [ch Hch]; [lia|].
    exists pat, ch. repeat split; try done.
    unfold piece_cell. rewrite Hpat. simpl. by rewrite Hch.
  - intros f x y Hwf. by apply does_piece_fit_total.
  - intros f x y Hwf Hfree.
    destruct (lock_placement_free f k r x y Hwf Hk Hfree) as (f' & -> & _).
    by eexists.
Qed.

Lemma clear_keeps_border f :
  wf_field f → has_border f → has_border (clear_full_lines_spec f).
Proof.
  intros Hwf Hborder x y [Hx Hy] Hb.
  assert (length f = 18%nat) as Hlen by apply Hwf.
  pose proof (clear_spec_wf f Hwf) as Hwf'.
  destruct (wf_field_cell _ x y Hwf' (conj Hx Hy)) as (row & c & Hrow & Hc).
  unfold cell at 1. rewrite Hrow. cbn [mbind option_bind].
  destruct (decide (y = FIELD_HEIGHT - 1)) as [->|Hny].
  - change (Z.to_nat (FIELD_HEIGHT - 1)) with 17%nat in Hrow.
    rewrite clear_spec_bottom in Hrow by done.
    rewrite <- (Hborder x (FIELD_HEIGHT - 1)); [|done|by right; right].
    unfold cell. change (Z.to_nat (FIELD_HEIGHT - 1)) with 17%nat.
    by rewrite Hrow.
  - assert (x = 0 ∨ x = FIELD_WIDTH - 1) as Hcol.
    { destruct Hb as [?|[?|?]]; [by left|by right|done]. }
    apply list_elem_of_lookup_2 in Hrow. unfold clear_full_lines_spec in Hrow.
    rewrite !elem_of_app in Hrow. destruct Hrow as [Hrow|[Hrow|Hrow]].
    + apply elem_of_replicate in Hrow as [-> _].
      destruct Hcol as [->| ->]; reflexivity.
    + apply list_elem_of_filter in Hrow as [_ Hrow].
      apply list_elem_of_lookup_1 in Hrow as [y' Hy'].
      apply lookup_take_Some in Hy' as [Hy' Hlt].
      rewrite <- (Hborder x (Z.of_nat y')).
      * unfold cell. rewrite Nat2Z.id, Hy'. done.
      * split; [done|]. apply lookup_lt_Some in Hy'. unfold FIELD_HEIGHT. lia.
      * destruct Hcol; [by left|by right; left].
    + apply list_elem_of_lookup_1 in Hrow as [y' Hy'].
      unfold bottom_rows in Hy'. rewrite lookup_drop in Hy'.
      rewrite <- (Hborder x (Z.of_nat (Z.to_nat (FIELD_HEIGHT - 1) + y'))).
      * unfold cell. rewrite Nat2Z.id, Hy'. done.
      * split; [done|]. apply lookup_lt_Some in Hy'. unfold FIELD_HEIGHT in *. lia.
      * destruct Hcol; [by left|by right; left].
Qed.

(** ** Spawning *)

Lemma new_piece_spec k s ok :
  does_piece_fit (field s) k 0 4 0 = Some ok →
  new_piece k s
  = Some (mkState (field s) (score s) (game_over s || negb ok) (speed s)
            (speed_counter s) (piece_count s) k 0 4 0).
Proof.
  intros Hok. unfold new_piece, fits_at.
  change (FIELD_WIDTH `div` 2 - 2) with 4. cbn -[does_piece_fit].
  rewrite Hok. cbn.
  destruct ok; cbn; unfold set_game_over; cbn.
  - by rewrite orb_false_r.
  - by rewrite orb_true_r.
Qed.

(** C6. [new_piece] records the drawn kind with rotation 0, y = 0 and
    x = 4 (the 4x4 box centred over the ten interior columns, which
    start at column 1), fit or not; it changes nothing else except that
    [game_over] becomes true when the collision test at the spawn
    placement fails, so from a running game [game_over] is true
    afterwards exactly when that test fails.  On the empty bordered
    12x18 field the O piece spawns at x = 4, y = 0 and fits. *)
Theorem new_piece_spawn k s :
  wf_field (field s) → valid_kind k →
  ∃ s' ok,
    new_piece k s = Some s' ∧
    does_piece_fit (field s) k 0 (current_x s') (current_y s') = Some ok ∧
    current_piece s' = k ∧ current_rotation s' = 0 ∧
    current_x s' = 4 ∧ current_y s' = 0 ∧
    current_x s' = 1 + ((FIELD_WIDTH - 2) `div` 2 - 2) ∧
    field s' = field s ∧ score s' = score s ∧ speed s' = speed s ∧
    speed_counter s' = speed_counter s ∧ piece_count s' = piece_count s ∧
    game_over s' = game_over s || negb ok ∧
    (game_over s = false → (game_over s' = true ↔ ok = false)) ∧
    (field s = initial_field → k = 3 → ok = true).
Proof.
  intros Hwf Hk.
  destruct (does_piece_fit_total (field s) k 0 4 0 Hwf Hk) as [ok Hok].
  eexists _, ok. split; [by apply new_piece_spec|]. cbn.
  do 12 (split; [done|]). split.
  - intros ->. destruct ok; cbn; split; congruence.
  - intros Hf ->. rewrite Hf in Hok. vm_compute in Hok. congruence.
Qed.

(** ** The gravity step *)

Lemma force_down_fall k s :
  fits_at s (current_rotation s) (current_x s) (current_y s + 1) = Some true →
  force_down_step k s
  = Some (mkState (field s) (score s) (game_over s) (speed s) 0 (piece_count s)
            (current_piece s) (current_rotation s) (current_x s) (current_y s + 1)).
Proof.
  intros Hfit. unfold force_down_step, fits_at in *.
  cbn -[does_piece_fit]. rewrite Hfit. done.
Qed.

Lemma force_down_lock k s f1 ok :
  fits_at s (current_rotation s) (current_x s) (current_y s + 1) = Some false →
  lock_cells (field s) (current_piece s) (current_rotation s)
             (current_x s) (current_y s) footprint = Some f1 →
  wf_field f1 →
  does_piece_fit (clear_full_lines_spec f1) k 0 4 0 = Some ok →
  force_down_step k s
  = Some (mkState (clear_full_lines_spec f1)
            (score s + line_bonus (full_count f1))
            (game_over s || negb ok)
            (speed_after (piece_count s + 1) (speed s))
            0 (piece_count s + 1) k 0 4 0).
Proof.
  intros Hfit Hlock Hwf Hspawn. unfold force_down_step, fits_at in *.
  cbn -[does_piece_fit check_lines new_piece lock_cells]. rewrite Hfit.
  cbn -[does_piece_fit check_lines new_piece lock_cells].
  unfold lock_piece. cbn -[does_piece_fit check_lines new_piece lock_cells].
  rewrite Hlock. cbn -[does_piece_fit check_lines new_piece lock_cells].
  rewrite check_lines_spec by done.
  cbn -[does_piece_fit check_lines new_piece lock_cells clear_full_lines_spec
        full_count line_bonus].
  erewrite new_piece_spec by exact Hspawn.
  cbn -[clear_full_lines_spec full_count line_bonus Z.modulo].
  unfold speed_after, set_speed, set_piece_count.
  cbn -[clear_full_lines_spec full_count line_bonus Z.modulo].
  destruct (Z.eqb_spec ((piece_count s + 1) mod 10) 0) as [Hm|Hm];
    destruct (Z.gtb_spec (speed s) 10) as [Hs|Hs]; cbn [andb];
    case_decide; try done; lia.
Qed.

(** ** Button handlers *)

Lemma handle_left_spec s ok :
  fits_at s (current_rotation s) (current_x s - 1) (current_y s) = Some ok →
  handle_left s
  = Some (if ok then
            mkState (field s) (score s) (game_over s) (speed s) (speed_counter s)
              (piece_count s) (current_piece s) (current_rotation s)
              (current_x s - 1) (current_y s)
          else s).
Proof. intros H. unfold handle_left. rewrite H. by destruct ok. Qed.

Lemma handle_right_spec s ok :
  fits_at s (current_rotation s) (current_x s + 1) (current_y s) = Some ok →
  handle_right s
  = Some (if ok then
            mkState (field s) (score s) (game_over s) (speed s) (speed_counter s)
              (piece_count s) (current_piece s) (current_rotation s)
              (current_x s + 1) (current_y s)
          else s).
Proof. intros H. unfold handle_right. rewrite H. by destruct ok. Qed.

Lemma handle_down_spec s ok :
  fits_at s (current_rotation s) (current_x s) (current_y s + 1) = Some ok →
  handle_down s
  = Some (if ok then
            mkState (field s) (score s) (game_over s) (speed s) 0
              (piece_count s) (current_piece s) (current_rotation s)
              (current_x s) (current_y s + 1)
          else s).
Proof. intros H. unfold handle_down. rewrite H. by destruct ok. Qed.

Lemma handle_rotate_spec s ok :
  fits_at s (current_rotation s + 1) (current_x s) (current_y s) = Some ok →
  handle_rotate s
  = Some (if ok then
            mkState (field s) (score s) (game_over s) (speed s) (speed_counter s)
              (piece_count s) (current_piece s) (current_rotation s + 1)
              (current_x s) (current_y s)
          else s).
Proof. intros H. unfold handle_rotate. rewrite H. by destruct ok. Qed.

Lemma piece_cell_mod k r px py : piece_cell k (r mod 4) px py = piece_cell k r px py.
Proof. unfold piece_cell. by rewrite rotate_mod. Qed.

Lemma does_piece_fit_mod f k r x y :
  does_piece_fit f k (r mod 4) x y = does_piece_fit f k r x y.
Proof.
  unfold does_piece_fit. induction footprint as [|[px py] rest IH]; [done|].
  cbn [fit_cells]. by rewrite piece_cell_mod, IH.
Qed.

(** C7. On a well-formed state every handler returns (no exception):
    it evaluates the collision test once, at its target placement; when
    the test passes the result differs from the input in exactly the
    documented component (x-1, x+1, y+1 together with the fall timer
    reset to 0, rotation+1 stored unreduced), and when it fails the
    result is the input state itself.  The stored rotation is reduced
    mod 4 only where it is used: the collision test gives the same
    answer for [r] and [r mod 4]. *)
Theorem handlers_commit_or_noop s :
  wf_field (field s) → valid_kind (current_piece s) →
  (∃ ok, fits_at s (current_rotation s) (current_x s - 1) (current_y s) = Some ok ∧
     handle_left s
     = Some (if ok then
               mkState (field s) (score s) (game_over s) (speed s) (speed_counter s)
                 (piece_count s) (current_piece s) (current_rotation s)
                 (current_x s - 1) (current_y s)
             else s)) ∧
  (∃ ok, fits_at s (current_rotation s) (current_x s + 1) (current_y s) = Some ok ∧
     handle_right s
     = Some (if ok then
               mkState (field s) (score s) (game_over s) (speed s) (speed_counter s)
                 (piece_count s) (current_piece s) (current_rotation s)
                 (current_x s + 1) (current_y s)
             else s)) ∧
  (∃ ok, fits_at s (current_rotation s) (current_x s) (current_y s + 1) = Some ok ∧
     handle_down s
     = Some (if ok then
               mkState (field s) (score s) (game_over s) (speed s) 0
                 (piece_count s) (current_piece s) (current_rotation s)
                 (current_x s) (current_y s + 1)
             else s)) ∧
  (∃ ok, fits_at s (current_rotation s + 1) (current_x s) (current_y s) = Some ok ∧
     handle_rotate s
     = Some (if ok then
               mkState (field s) (score s) (game_over s) (speed s) (speed_counter s)
                 (piece_count s) (current_piece s) (current_rotation s + 1)
                 (current_x s) (current_y s)
             else s)) ∧
  (∀ f r x y, does_piece_fit f (current_piece s) (r mod 4) x y
              = does_piece_fit f (current_piece s) r x y).
Proof.
  intros Hwf Hk. split_and!; [..|intros; apply does_piece_fit_mod].
  - destruct (does_piece_fit_total (field s) (current_piece s)
      (current_rotation s) (current_x s - 1) (current_y s) Hwf Hk) as [ok Hok].
    exists ok. split; [done|]. by apply handle_left_spec.
  - destruct (does_piece_fit_total (field s) (current_piece s)
      (current_rotation s) (current_x s + 1) (current_y s) Hwf Hk) as [ok Hok].
    exists ok. split; [done|]. by apply handle_right_spec.
  - destruct (does_piece_fit_total (field s) (current_piece s)
      (current_rotation s) (current_x s) (current_y s + 1) Hwf Hk) as [ok Hok].
    exists ok. split; [done|]. by apply handle_down_spec.
  - destruct (does_piece_fit_total (field s) (current_piece s)
      (current_rotation s + 1) (current_x s) (current_y s) Hwf Hk) as [ok Hok].
    exists ok. split; [done|]. by apply handle_rotate_spec.
Qed.

Lemma fit_placement_free f k r x y :
  wf_field f → valid_kind k →
  does_piece_fit f k r x y = Some true → placement_free f k r x y.
Proof.
  intros Hwf Hk Hfit.
  destruct (fit_cells_spec f k r x y footprint Hwf Hk) as (b & Hb & Hspec).
  { intros px py. by rewrite elem_of_footprint. }
  unfold does_piece_fit in Hfit. rewrite Hfit in Hb. injection Hb as <-.
  intros px py Hx Hy. apply Hspec; [done|]. by apply elem_of_footprint.
Qed.

(** The two outcomes of the gravity step on a state whose piece sits at
    a free placement. *)
Lemma force_down_step_cases k s :
  wf_field (field s) → valid_kind (current_piece s) → valid_kind k →
  fits_at s (current_rotation s) (current_x s) (current_y s) = Some true →
  (fits_at s (current_rotation s) (current_x s) (current_y s + 1) = Some true ∧
   force_down_step k s
   = Some (mkState (field s) (score s) (game_over s) (speed s) 0 (piece_count s)
             (current_piece s) (current_rotation s) (current_x s) (current_y s + 1)))
  ∨
  (fits_at s (current_rotation s) (current_x s) (current_y s + 1) = Some false ∧
   ∃ f1 ok,
     lock_piece s = Some (set_field f1 s) ∧
     wf_field f1 ∧ (has_border (field s) → has_border f1) ∧
     (∀ px py, 0 ≤ px < 4 → 0 ≤ py < 4 →
        occupies (current_piece s) (current_rotation s) px py →
        cell f1 (current_x s + px) (current_y s + py) = Some (current_piece s + 1)) ∧
     (∀ cx cy, 0 ≤ cx → 0 ≤ cy →
        (∀ px py, 0 ≤ px < 4 → 0 ≤ py < 4 →
           occupies (current_piece s) (current_rotation s) px py →
           ¬ (cx = current_x s + px ∧ cy = current_y s + py)) →
        cell f1 cx cy = cell (field s) cx cy) ∧
     does_piece_fit (clear_full_lines_spec f1) k 0 4 0 = Some ok ∧
     force_down_step k s
     = Some (mkState (clear_full_lines_spec f1)
               (score s + line_bonus (full_count f1))
               (game_over s || negb ok)
               (speed_after (piece_count s + 1) (speed s))
               0 (piece_count s + 1) k 0 4 0)).
Proof.
  intros Hwf Hp Hk Hcur.
  destruct (does_piece_fit_total (field s) (current_piece s)
    (current_rotation s) (current_x s) (current_y s + 1) Hwf Hp) as [[] Hbelow].
  - left. split; [done|]. by apply force_down_fall.
  - right. split; [done|].
    destruct (lock_placement_free (field s) (current_piece s) (current_rotation s)
      (current_x s) (current_y s) Hwf Hp)
      as (f1 & Hlock & Hwf1 & Hb1 & Hcov & Hunch).
    { by apply fit_placement_free. }
    destruct (does_piece_fit_total (clear_full_lines_spec f1) k 0 4 0) as [ok Hok];
      [by apply clear_spec_wf|done|].
    exists f1, ok. split.
    { unfold lock_piece. by rewrite Hlock. }
    do 4 (split; [done|]). split; [done|].
    by apply force_down_lock.
Qed.

Lemma speed_after_spec c v :
  (c mod 10 = 0 → 10 < v → speed_after c v = v - 1) ∧
  (¬ (c mod 10 = 0 ∧ 10 < v) → speed_after c v = v) ∧
  (10 ≤ v → 10 ≤ speed_after c v ≤ v) ∧
  (v ≤ 10 → speed_after c v = v).
Proof. unfold speed_after. split_and!; intros; case_decide; lia. Qed.

(** The frame of each sub-step, whatever the state. *)
Lemma lock_piece_frame s s' :
  lock_piece s = Some s' → s' = set_field (field s') s.
Proof.
  unfold lock_piece. destruct (lock_cells _ _ _ _ _ _); [|done].
  by intros [= <-].
Qed.

Lemma check_lines_frame s s' :
  check_lines s = Some s' → s' = set_field (field s') (set_score (score s') s).
Proof.
  unfold check_lines. destruct (lines_to_clear _ _) as [ls|]; [|done].
  cbn [mbind option_bind]. destruct ls as [|y ls].
  - intros [= <-]. unfold set_field, set_score. cbn. by rewrite state_eta.
  - destruct (pop_lines _ (y :: ls)); [|done]. cbn [mbind option_bind].
    by intros [= <-].
Qed.

Lemma new_piece_frame k s s' :
  new_piece k s = Some s' →
  field s' = field s ∧ score s' = score s ∧ speed s' = speed s ∧
  speed_counter s' = speed_counter s ∧ piece_count s' = piece_count s ∧
  current_piece s' = k.
Proof.
  unfold new_piece. destruct (fits_at _ _ _ _) as [[]|]; cbn; [| |done];
    by intros [= <-].
Qed.

Lemma force_down_step_speed k s s' :
  force_down_step k s = Some s' →
  speed s' = speed s ∨ (10 < speed s ∧ speed s' = speed s - 1).
Proof.
  unfold force_down_step. destruct (fits_at _ _ _ _) as [[]|]; cbn; [| |done].
  { intros [= <-]. by left. }
  destruct (lock_piece _) as [s1|] eqn:H1; cbn; [|done].
  destruct (check_lines s1) as [s2|] eqn:H2; cbn; [|done].
  destruct (new_piece k s2) as [s3|] eqn:H3; cbn; [|done].
  apply lock_piece_frame in H1. apply check_lines_frame in H2.
  apply new_piece_frame in H3 as (_ & _ & H3 & _).
  assert (speed s3 = speed s) as Hs.
  { rewrite H3, H2. cbn. by rewrite H1. }
  destruct (_ && _) eqn:Hc; intros [= <-]; cbn; rewrite Hs; [|by left].
  right. apply andb_true_iff in Hc as [_ Hc]. rewrite Hs in Hc. lia.
Qed.

Lemma on_click_speed b s s' : on_click b s = Some s' → speed s' = speed s.
Proof.
  destruct b; cbn; unfold handle_left, handle_down, handle_right, handle_rotate;
    destruct (fits_at _ _ _ _) as [[]|]; cbn; try done; by intros [= <-].
Qed.

Lemma play_step_speed s s' :
  play_step s s' → speed s' = speed s ∨ (10 < speed s ∧ speed s' = speed s - 1).
Proof.
  destruct 1 as [b s s' Hc|k0 k s s' Hk Hrun].
  - left. by eapply on_click_speed.
  - revert Hrun. unfold script_run. cbn [initialize_game mbind option_bind].
    destruct (game_over s); [intros [= <-]; by left|].
    unfold game_loop. cbn [speed_counter speed set_speed_counter].
    destruct (_ >=? _).
    + destruct (force_down_step _ _) as [s1|] eqn:Hf; [|done].
      intros [= <-]. by apply force_down_step_speed in Hf.
    + intros [= <-]. by left.
Qed.

Lemma plays_speed_floor s s' :
  rtc play_step s s' → 10 ≤ speed s → 10 ≤ speed s' ≤ speed s.
Proof.
  induction 1 as [s|s s1 s2 Hstep _ IH]; intros Hs; [lia|].
  apply play_step_speed in Hstep. lia.
Qed.

(** C5. In a gravity step the score changes only through line clearing:
    it is unchanged when the piece moves down, and when the piece locks
    it grows by the bonus of the number [n] of full rows of the field
    after locking, all of which are removed: nothing for [n = 0] and
    [(1 << n) * 100] for [n >= 1] (200, 400, 800, 1600 for 1..4 lines). *)
Theorem score_bonus_per_lock k s :
  wf_field (field s) → valid_kind (current_piece s) → valid_kind k →
  fits_at s (current_rotation s) (current_x s) (current_y s) = Some true →
  (∃ s', force_down_step k s = Some s' ∧
     (fits_at s (current_rotation s) (current_x s) (current_y s + 1) = Some true →
      score s' = score s ∧ field s' = field s) ∧
     (fits_at s (current_rotation s) (current_x s) (current_y s + 1) = Some false →
      ∃ s1 s2, lock_piece s = Some s1 ∧ score s1 = score s ∧
        check_lines s1 = Some s2 ∧
        field s2 = clear_full_lines_spec (field s1) ∧
        score s2 = score s + line_bonus (full_count (field s1)) ∧
        field s' = field s2 ∧ score s' = score s2)) ∧
  line_bonus 0 = 0 ∧ line_bonus 1 = 200 ∧ line_bonus 2 = 400 ∧
  line_bonus 3 = 800 ∧ line_bonus 4 = 1600 ∧
  (∀ n : nat, (1 ≤ n)%nat → line_bonus n = Z.shiftl 1 (Z.of_nat n) * 100).
Proof.
  intros Hwf Hp Hk Hcur. split.
  - destruct (force_down_step_cases k s Hwf Hp Hk Hcur)
      as [[Hbelow Hstep]|(Hbelow & f1 & ok & Hlock & Hwf1 & _ & _ & _ & Hok & Hstep)].
    + eexists. split; [exact Hstep|]. split; [done|]. congruence.
    + eexists. split; [exact Hstep|]. split; [congruence|]. intros _.
      exists (set_field f1 s). eexists. split; [done|]. split; [done|].
      split; [by apply check_lines_spec|]. done.
  - do 5 (split; [reflexivity|]). by intros [|n] Hn; [lia|].
Qed.

(** ** The invariant of the session *)

Lemma on_click_ok b s s' : state_ok s → on_click b s = Some s' → state_ok s'.
Proof.
  intros Hs Hc. pose proof Hs as (Hwf & Hb & Hk & Hfit).
  assert (∀ r x y, ∃ ok, fits_at s r x y = Some ok) as Htot.
  { intros r x y. unfold fits_at. by apply does_piece_fit_total. }
  destruct b; cbn [on_click] in Hc.
  - destruct (Htot (current_rotation s) (current_x s - 1) (current_y s)) as [ok Hok].
    rewrite (handle_left_spec s ok Hok) in Hc. injection Hc as <-.
    destruct ok; [|exact Hs]. split_and!; [exact Hwf|exact Hb|exact Hk|intros _; exact Hok].
  - destruct (Htot (current_rotation s) (current_x s) (current_y s + 1)) as [ok Hok].
    rewrite (handle_down_spec s ok Hok) in Hc. injection Hc as <-.
    destruct ok; [|exact Hs]. split_and!; [exact Hwf|exact Hb|exact Hk|intros _; exact Hok].
  - destruct (Htot (current_rotation s) (current_x s + 1) (current_y s)) as [ok Hok].
    rewrite (handle_right_spec s ok Hok) in Hc. injection Hc as <-.
    destruct ok; [|exact Hs]. split_and!; [exact Hwf|exact Hb|exact Hk|intros _; exact Hok].
  - destruct (Htot (current_rotation s + 1) (current_x s) (current_y s)) as [ok Hok].
    rewrite (handle_rotate_spec s ok Hok) in Hc. injection Hc as <-.
    destruct ok; [|exact Hs]. split_and!; [exact Hwf|exact Hb|exact Hk|intros _; exact Hok].
Qed.

Lemma force_down_step_ok k s s' :
  state_ok s → game_over s = false → valid_kind k →
  force_down_step k s = Some s' → state_ok s'.
Proof.
  intros (Hwf & Hb & Hp & Hfit) Hrun Hk Hstep.
  destruct (force_down_step_cases k s Hwf Hp Hk (Hfit Hrun))
    as [[Hbelow Hs]|(Hbelow & f1 & ok & Hlock & Hwf1 & Hb1 & _ & _ & Hok & Hs)];
    rewrite Hs in Hstep; injection Hstep as <-.
  - done.
  - split_and!; cbn.
    + by apply clear_spec_wf.
    + apply clear_keeps_border; [done|]. by apply Hb1.
    + done.
    + rewrite Hrun. cbn. unfold fits_at. cbn. by intros ->%negb_false_iff.
Qed.

Lemma game_loop_ok k s s' :
  state_ok s → game_over s = false → valid_kind k →
  game_loop k s = Some s' → state_ok s'.
Proof.
  intros Hok Hrun Hk. unfold game_loop.
  cbn [speed_counter speed set_speed_counter].
  destruct (_ >=? _).
  - by apply force_down_step_ok.
  - by intros [= <-].
Qed.

Lemma script_run_inv restart k0 k ss s' :
  script_run restart k0 k ss = Some (Some s') →
  ∃ s, initialize_game k0 ss = Some s ∧
       ((game_over s = true ∧ restart = false ∧ s' = s) ∨
        (game_over s = false ∧ game_loop k s = Some s')).
Proof.
  unfold script_run. destruct (initialize_game k0 ss) as [s|]; [|done].
  cbn [mbind option_bind]. exists s. split; [done|].
  destruct (game_over s).
  - destruct restart; [done|]. left. by injection H as <-.
  - right. split; [done|]. destruct (game_loop k s); [|done].
    cbn in H. by injection H as <-.
Qed.

Lemma initialize_game_fresh k0 :
  valid_kind k0 →
  ∃ ok, does_piece_fit initial_field k0 0 4 0 = Some ok ∧
    initialize_game k0 None
    = Some (mkState initial_field 0 (negb ok) 20 0 0 k0 0 4 0).
Proof.
  intros Hk.
  destruct (does_piece_fit_total initial_field k0 0 4 0 wf_initial_field Hk)
    as [ok Hok].
  exists ok. split; [done|]. unfold initialize_game.
  by erewrite new_piece_spec by exact Hok.
Qed.

Lemma initialize_game_ok k0 ss s :
  valid_kind k0 → (∀ s0, ss = Some s0 → state_ok s0) →
  initialize_game k0 ss = Some s → state_ok s.
Proof.
  intros Hk Hss. destruct ss as [s0|].
  - intros [= <-]. by apply Hss.
  - destruct (initialize_game_fresh k0 Hk) as (ok & Hok & ->).
    intros [= <-]. split_and!; cbn.
    + apply wf_initial_field.
    + apply has_border_initial_field.
    + done.
    + unfold fits_at. cbn. by intros ->%negb_false_iff.
Qed.

Lemma play_step_ok s s' : state_ok s → play_step s s' → state_ok s'.
Proof.
  intros Hok. destruct 1 as [b s s' Hc|k0 k s s' Hk Hrun].
  - by eapply on_click_ok.
  - apply script_run_inv in Hrun as (s0 & [= <-] & [(_ & _ & ->)|[Hg Hloop]]).
    + done.
    + by eapply game_loop_ok.
Qed.

Lemma reachable_ok s : reachable s → state_ok s.
Proof.
  induction 1 as [restart k0 k s Hk0 Hk Hrun|s s' _ IH Hstep].
  - apply script_run_inv in Hrun as (s0 & Hinit & Hcases).
    apply initialize_game_ok in Hinit; [|done|done].
    destruct Hcases as [(_ & _ & ->)|[Hg Hloop]]; [done|].
    by eapply game_loop_ok.
  - by eapply play_step_ok.
Qed.

(** C3. One gravity step of a running game whose piece sits at a free
    placement, as it does in every state a running session can hold.
    If the piece fits one row lower, only [current_y]
    (plus 1) and the fall timer (reset to 0) change: field, score, speed
    and piece count are the same.  Otherwise the covered cells are
    written with the piece's value into the field (every other cell is
    kept), the full lines are cleared and scored, a piece of the drawn
    kind is spawned at rotation 0, x = 4, y = 0, the piece count grows by
    one, and the speed drops by exactly 1 when the new count is a
    multiple of 10 and the speed is above 10, and is unchanged
    otherwise.  From then on, however the game is played, the speed
    never goes below 10 and never rises; once it is 10 it stays 10. *)
Theorem gravity_step_spec k s :
  (reachable s → game_over s = false →
   wf_field (field s) ∧ valid_kind (current_piece s) ∧
   fits_at s (current_rotation s) (current_x s) (current_y s) = Some true) ∧
  (game_over s = false → wf_field (field s) →
   valid_kind (current_piece s) → valid_kind k →
   fits_at s (current_rotation s) (current_x s) (current_y s) = Some true →
   (fits_at s (current_rotation s) (current_x s) (current_y s + 1) = Some true ∧
    force_down_step k s
    = Some (mkState (field s) (score s) (game_over s) (speed s) 0 (piece_count s)
              (current_piece s) (current_rotation s) (current_x s)
              (current_y s + 1)))
   ∨
   (fits_at s (current_rotation s) (current_x s) (current_y s + 1) = Some false ∧
    ∃ f1 ok,
      lock_piece s = Some (set_field f1 s) ∧
      (∀ px py, 0 ≤ px < 4 → 0 ≤ py < 4 →
         occupies (current_piece s) (current_rotation s) px py →
         cell f1 (current_x s + px) (current_y s + py) = Some (current_piece s + 1)) ∧
      (∀ cx cy, 0 ≤ cx → 0 ≤ cy →
         (∀ px py, 0 ≤ px < 4 → 0 ≤ py < 4 →
            occupies (current_piece s) (current_rotation s) px py →
            ¬ (cx = current_x s + px ∧ cy = current_y s + py)) →
         cell f1 cx cy = cell (field s) cx cy) ∧
      does_piece_fit (clear_full_lines_spec f1) k 0 4 0 = Some ok ∧
      force_down_step k s
      = Some (mkState (clear_full_lines_spec f1)
                (score s + line_bonus (full_count f1))
                (negb ok)
                (speed_after (piece_count s + 1) (speed s))
                0 (piece_count s + 1) k 0 4 0))) ∧
  (∀ c v, (c mod 10 = 0 → 10 < v → speed_after c v = v - 1) ∧
          (¬ (c mod 10 = 0 ∧ 10 < v) → speed_after c v = v) ∧
          (10 ≤ v → 10 ≤ speed_after c v ≤ v) ∧
          (v ≤ 10 → speed_after c v = v)) ∧
  (∀ s', rtc play_step s s' →
     (10 ≤ speed s → 10 ≤ speed s' ≤ speed s) ∧
     (speed s = 10 → speed s' = 10)).
Proof.
  split; [|split; [|split]].
  - intros Hreach Hrun.
    destruct (reachable_ok s Hreach) as (Hwf & _ & Hp & Hfit). auto.
  - intros Hrun Hwf Hp Hk Hcur.
    destruct (force_down_step_cases k s Hwf Hp Hk Hcur)
      as [Hfall|(Hbelow & f1 & ok & Hlock & _ & _ & Hcov & Hunch & Hok & Hstep)].
    + by left.
    + right. split; [done|]. exists f1, ok. rewrite Hrun in Hstep.
      by repeat (split; [done|]).
  - apply speed_after_spec.
  - intros s' Hplay. split.
    + by apply plays_speed_floor.
    + intros Hs. pose proof (plays_speed_floor s s' Hplay). lia.
Qed.

Lemma reachable_plays s s' : reachable s → rtc play_step s s' → reachable s'.
Proof. induction 2; [done|]. eauto using reach_play. Qed.

Lemma exec_trace_plays es s s' :
  Forall event_ok es → exec_trace es s = Some s' → rtc play_step s s'.
Proof.
  intros Hes. revert s. induction Hes as [|e es He _ IH]; intros s; cbn [exec_trace].
  - intros [= <-]. apply rtc_refl.
  - destruct (exec e s) as [s1|] eqn:He1; [|done]. cbn [mbind option_bind].
    intros Hrest. eapply rtc_l; [|by apply IH].
    destruct e as [b|k]; cbn [exec event_ok] in *.
    + by eapply play_click.
    + destruct (script_run false k k (Some s)) as [[s2|]|] eqn:Hrun; try done.
      cbn in He1. injection He1 as ->. by eapply play_run.
Qed.

(** C9. In every state the session can hold, all cells of column 0,
    column 11 and row 17 hold the Border value 9 and the field keeps its
    dimensions.  No operation breaks this: handlers and spawning leave
    the field untouched, locking the piece of a running game and
    clearing lines return a field with the border intact, and so does
    every further step of play.  A placement accepted by the collision
    test covers no border position. *)
Theorem border_invariant s :
  reachable s →
  wf_field (field s) ∧
  (∀ x y, in_field x y → is_border x y → cell (field s) x y = Some 9) ∧
  (∀ b s', on_click b s = Some s' → field s' = field s) ∧
  (∀ k s', new_piece k s = Some s' → field s' = field s) ∧
  (game_over s = false →
   ∃ s', lock_piece s = Some s' ∧ wf_field (field s') ∧ has_border (field s')) ∧
  (∃ s', check_lines s = Some s' ∧ wf_field (field s') ∧ has_border (field s')) ∧
  (∀ s', rtc play_step s s' → wf_field (field s') ∧ has_border (field s')) ∧
  (∀ k r x y px py, valid_kind k →
     does_piece_fit (field s) k r x y = Some true →
     0 ≤ px < 4 → 0 ≤ py < 4 → occupies k r px py →
     in_field (x + px) (y + py) ∧ ¬ is_border (x + px) (y + py) ∧
     cell (field s) (x + px) (y + py) = Some 0).
Proof.
  intros Hreach. pose proof (reachable_ok s Hreach) as (Hwf & Hb & Hp & Hfit).
  split; [done|]. split; [done|]. split_and!.
  - intros b s' Hc.
    assert (∀ r x y, ∃ ok, fits_at s r x y = Some ok) as Htot.
    { intros r x y. unfold fits_at. by apply does_piece_fit_total. }
    destruct b; cbn [on_click] in Hc.
    + destruct (Htot (current_rotation s) (current_x s - 1) (current_y s)) as [ok Hok].
      rewrite (handle_left_spec s ok Hok) in Hc. injection Hc as <-. by destruct ok.
    + destruct (Htot (current_rotation s) (current_x s) (current_y s + 1)) as [ok Hok].
      rewrite (handle_down_spec s ok Hok) in Hc. injection Hc as <-. by destruct ok.
    + destruct (Htot (current_rotation s) (current_x s + 1) (current_y s)) as [ok Hok].
      rewrite (handle_right_spec s ok Hok) in Hc. injection Hc as <-. by destruct ok.
    + destruct (Htot (current_rotation s + 1) (current_x s) (current_y s)) as [ok Hok].
      rewrite (handle_rotate_spec s ok Hok) in Hc. injection Hc as <-. by destruct ok.
  - intros k s' Hn. by apply new_piece_frame in Hn as (-> & _).
  - intros Hrun.
    destruct (lock_placement_free (field s) (current_piece s) (current_rotation s)
      (current_x s) (current_y s) Hwf Hp) as (f1 & Hlock & Hwf1 & Hb1 & _).
    { apply fit_placement_free; [done..|]. by apply Hfit. }
    exists (set_field f1 s). unfold lock_piece. rewrite Hlock.
    split; [done|]. split; [done|]. by apply Hb1.
  - eexists. split; [by apply check_lines_spec|]. cbn [field set_field].
    split; [by apply clear_spec_wf|by apply clear_keeps_border].
  - intros s' Hplay.
    pose proof (reachable_ok s' (reachable_plays s s' Hreach Hplay)) as (? & ? & _).
    done.
  - intros k r x y px py Hk Hok Hx Hy Ho.
    destruct (fit_placement_free _ _ _ _ _ Hwf Hk Hok px py Hx Hy Ho) as [Hin Hc].
    split; [done|]. split; [|done]. intros Hbd.
    rewrite (Hb _ _ Hin Hbd) in Hc. done.
Qed.

(** ** Game over *)

Lemma spawn_fits_initial k0 :
  valid_kind k0 → does_piece_fit initial_field k0 0 4 0 = Some true.
Proof.
  intros Hk. unfold valid_kind in Hk.
  assert (k0 = 0 ∨ k0 = 1 ∨ k0 = 2 ∨ k0 = 3 ∨ k0 = 4 ∨ k0 = 5 ∨ k0 = 6) as Hc by lia.
  destruct_or!; subst k0; vm_compute; reflexivity.
Qed.

Lemma first_run restart k0 k :
  valid_kind k0 →
  script_run restart k0 k None
  = Some (Some (mkState initial_field 0 false 20 1 0 k0 0 4 0)).
Proof.
  intros Hk. unfold script_run.
  destruct (initialize_game_fresh k0 Hk) as (ok & Hok & ->).
  rewrite (spawn_fits_initial k0 Hk) in Hok. injection Hok as <-.
  reflexivity.
Qed.

Lemma on_click_ignores_game_over b g s :
  on_click b (set_game_over g s) = set_game_over g <$> on_click b s.
Proof.
  destruct b; cbn [on_click];
    unfold handle_left, handle_down, handle_right, handle_rotate, fits_at;
    cbn [field current_piece current_rotation current_x current_y set_game_over];
    destruct (does_piece_fit _ _ _ _ _) as [[]|]; reflexivity.
Qed.

(** C8 (amended). Game over is terminal for the script: executed on a
    session whose game is over, the script stops at its guard and hands
    back the very same state unless the restart button was pressed, in
    which case it clears the session and the next execution creates the
    whole initial state anew.  The four handlers carry no such guard:
    what they do does not depend on [game_over]. *)
Theorem game_over_stops_script s :
  game_over s = true →
  (∀ k0 k, script_run false k0 k (Some s) = Some (Some s)) ∧
  (∀ k0 k, script_run true k0 k (Some s) = Some None) ∧
  (∀ restart k0 k, valid_kind k0 →
     script_run restart k0 k None
     = Some (Some (mkState initial_field 0 false 20 1 0 k0 0 4 0))) ∧
  (∀ b g, on_click b (set_game_over g s) = set_game_over g <$> on_click b s).
Proof.
  intros Hover. split_and!.
  - intros k0 k. unfold script_run. cbn [initialize_game mbind option_bind].
    by rewrite Hover.
  - intros k0 k. unfold script_run. cbn [initialize_game mbind option_bind].
    by rewrite Hover.
  - intros restart k0 k Hk. by apply first_run.
  - intros b g. apply on_click_ignores_game_over.
Qed.

Lemma stacked_state_reachable : reachable stacked_state.
Proof.
  apply (reachable_plays (mkState initial_field 0 false 20 1 0 0 0 4 0)).
  - apply (reach_fresh false 0 0); [unfold valid_kind; lia..|].
    vm_compute. reflexivity.
  - apply (exec_trace_plays stacked_trace).
    + unfold stacked_trace, drop_piece. rewrite !Forall_app. 
      repeat split; try (apply Forall_replicate; exact I);
        try (apply Forall_replicate; unfold event_ok, valid_kind; lia);
        (apply Forall_singleton; unfold event_ok, valid_kind; lia).
    + vm_compute. reflexivity.
Qed.

(** C8, as stated, fails: after four I pieces dropped straight down and
    an O drawn next the game is over, yet [handle_left] moves the
    piece from x = 4 to x = 3. *)
Lemma game_over_click_moves_piece :
  reachable stacked_state ∧ game_over stacked_state = true ∧
  ∃ s', handle_left stacked_state = Some s' ∧
        current_x stacked_state = 4 ∧ current_x s' = 3 ∧ s' ≠ stacked_state.
Proof.
  split; [apply stacked_state_reachable|]. split; [reflexivity|].
  eexists. split; [vm_compute; reflexivity|].
  split; [reflexivity|]. split; [reflexivity|]. discriminate.
Qed.

(** ** Concrete instances *)

Ltac concrete :=
  first [ reflexivity
        | unfold valid_kind; cbn; lia
        | split; [reflexivity|repeat constructor]
        | vm_compute; reflexivity ].

Lemma does_piece_fit_spec_witness :
  ∃ b, does_piece_fit initial_field 3 0 4 0 = Some b ∧ b = true.
Proof.
  destruct (does_piece_fit_spec initial_field 3 0 4 0) as (b & Hb & _);
    [concrete..|].
  exists b. split; [exact Hb|].
  vm_compute in Hb. by injection Hb as <-.
Defined.

Lemma rotate_index_in_bounds_witness : 0 ≤ rotate 3 1 (-5) < 16.
Proof.
  destruct (rotate_index_in_bounds 3 1 (-5)) as (_ & H & _); [lia..|].
  exact H.
Defined.

Lemma gravity_step_spec_witness :
  ∃ s', force_down_step 3 two_line_state = Some s' ∧
        speed_after (piece_count two_line_state + 1) (speed two_line_state) = 19.
Proof.
  destruct (gravity_step_spec 3 two_line_state) as (_ & Hstep & Hspeed & _).
  destruct Hstep as [[_ H]|(_ & f1 & ok & _ & _ & _ & _ & H)]; [concrete..| |].
  - exists (mkState (field two_line_state) (score two_line_state)
                    (game_over two_line_state) (speed two_line_state) 0
                    (piece_count two_line_state) (current_piece two_line_state)
                    (current_rotation two_line_state) (current_x two_line_state)
                    (current_y two_line_state + 1)).
    split; [exact H|reflexivity].
  - eexists. split; [exact H|reflexivity].
Defined.

Lemma check_lines_clears_full_rows_witness :
  ∃ s', check_lines one_line_state = Some s' ∧
        length (field s') = length (field one_line_state).
Proof.
  destruct (check_lines_clears_full_rows one_line_state)
    as (s' & H & _ & _ & _ & _ & Hlen & _); [concrete|].
  exists s'. split; [exact H|exact Hlen].
Defined.

Lemma score_bonus_per_lock_witness :
  (∃ s', force_down_step 3 two_line_state = Some s') ∧ line_bonus 2 = 400.
Proof.
  destruct (score_bonus_per_lock 3 two_line_state)
    as ((s' & H & _) & _ & _ & H2 & _); [concrete..|].
  split; [by exists s'|exact H2].
Defined.

Lemma new_piece_spawn_witness :
  ∃ s', new_piece 3 spawn_state = Some s' ∧ current_x s' = 4 ∧ current_y s' = 0.
Proof.
  destruct (new_piece_spawn 3 spawn_state)
    as (s' & ok & H & _ & _ & _ & Hx & Hy & _); [concrete..|].
  exists s'. split; [exact H|]. split; [exact Hx|exact Hy].
Defined.

Lemma handlers_commit_or_noop_witness :
  ∃ ok, fits_at spawn_state 0 3 0 = Some ok.
Proof.
  destruct (handlers_commit_or_noop spawn_state) as ((ok & H & _) & _);
    [concrete..|].
  exists ok. exact H.
Defined.

Lemma game_over_stops_script_witness :
  script_run false 0 0 (Some stacked_state) = Some (Some stacked_state).
Proof.
  destruct (game_over_stops_script stacked_state) as (H & _); [concrete|].
  apply H.
Defined.

Lemma border_invariant_witness :
  cell (field (mkState initial_field 0 false 20 1 0 3 0 4 0)) 11 5 = Some 9.
Proof.
  destruct (border_invariant (mkState initial_field 0 false 20 1 0 3 0 4 0))
    as (_ & H & _).
  - apply (reach_fresh false 3 3); concrete.
  - apply H.
    + unfold in_field, FIELD_WIDTH, FIELD_HEIGHT. lia.
    + right. left. reflexivity.
Defined.

(** * Further properties of the code *)

(** ** Rotation as a quarter turn *)

Lemma rotate_succ px py r : rotate px py (r + 1) = rotate py (3 - px) r.
Proof.
  destruct (rotate_cases px py (r + 1)) as [[H ->]|[[H ->]|[[H ->]|[H ->]]]];
    destruct (rotate_cases py (3 - px) r) as [[H' ->]|[[H' ->]|[[H' ->]|[H' ->]]]];
    revert H H'; Z.div_mod_to_equations; lia.
Qed.

Lemma rotate_injective r px py qx qy :
  0 ≤ px < 4 → 0 ≤ py < 4 → 0 ≤ qx < 4 → 0 ≤ qy < 4 →
  rotate px py r = rotate qx qy r → px = qx ∧ py = qy.
Proof.
  intros Hpx Hpy Hqx Hqy.
  destruct (rotate_cases px py r) as [[H ->]|[[H ->]|[[H ->]|[H ->]]]];
    destruct (rotate_cases qx qy r) as [[H' ->]|[[H' ->]|[[H' ->]|[H' ->]]]];
    lia.
Qed.

Lemma rotate_surjective r i :
  0 ≤ i < 16 → ∃ px py, 0 ≤ px < 4 ∧ 0 ≤ py < 4 ∧ rotate px py r = i.
Proof.
  intros Hi. pose proof (Z.mod_pos_bound r 4 ltac:(lia)) as Hr.
  assert (r mod 4 = 0 ∨ r mod 4 = 1 ∨ r mod 4 = 2 ∨ r mod 4 = 3) as Hc by lia.
  unfold rotate. destruct_or!; rewrite Hc; cbn [Z.eqb]; cbn.
  - exists (i mod 4), (i `div` 4). Z.div_mod_to_equations. lia.
  - exists (3 - i `div` 4), (i mod 4). Z.div_mod_to_equations. lia.
  - exists ((15 - i) mod 4), ((15 - i) `div` 4). Z.div_mod_to_equations. lia.
  - exists (i `div` 4), (3 - i mod 4). Z.div_mod_to_equations. lia.
Qed.

(** X1. One more step of rotation is a quarter turn of the local
    coordinates, [(px, py)] read at [(py, 3 - px)]; four steps are the
    identity; and for every rotation the index map is a bijection from
    the 4x4 local cells onto the 16 pattern positions. *)
Theorem rotate_quarter_turn px py r :
  rotate px py (r + 1) = rotate py (3 - px) r ∧
  rotate px py (r + 4) = rotate px py r ∧
  (0 ≤ px < 4 → 0 ≤ py < 4 →
   ∀ qx qy, 0 ≤ qx < 4 → 0 ≤ qy < 4 →
     rotate px py r = rotate qx qy r → px = qx ∧ py = qy) ∧
  (∀ i, 0 ≤ i < 16 →
     ∃ qx qy, 0 ≤ qx < 4 ∧ 0 ≤ qy < 4 ∧ rotate qx qy r = i).
Proof.
  split; [apply rotate_succ|]. split.
  - rewrite <- (rotate_mod px py (r + 4)), <- (rotate_mod px py r).
    f_equal. Z.div_mod_to_equations. lia.
  - split.
    + intros Hx Hy qx qy Hqx Hqy. by apply rotate_injective.
    + intros i Hi. by apply rotate_surjective.
Qed.

Lemma rotate_quarter_turn_witness :
  (rotate 1 2 3 = rotate 1 2 3 → 1 = 1 ∧ 2 = 2) ∧
  ∃ qx qy, 0 ≤ qx < 4 ∧ 0 ≤ qy < 4 ∧ rotate qx qy 3 = 7.
Proof.
  destruct (rotate_quarter_turn 1 2 3) as (_ & _ & Hinj & Hsurj).
  split; [apply Hinj; lia|apply Hsurj; lia].
Defined.

(** ** The cells of a piece *)

Lemma covered_cells_mod k r : covered_cells k (r mod 4) = covered_cells k r.
Proof.
  unfold covered_cells. apply list_filter_iff. intros [px py].
  by rewrite piece_cell_mod.
Qed.

Lemma elem_of_covered_cells k r px py :
  (px, py) ∈ covered_cells k r ↔ 0 ≤ px < 4 ∧ 0 ≤ py < 4 ∧ occupies k r px py.
Proof.
  unfold covered_cells. rewrite list_elem_of_filter, elem_of_footprint.
  unfold occupies. cbn [fst snd]. tauto.
Qed.

Lemma covered_cells_length k r :
  valid_kind k → length (covered_cells k r) = 4%nat.
Proof.
  intros Hk. rewrite <- covered_cells_mod.
  pose proof (Z.mod_pos_bound r 4 ltac:(lia)) as Hr.
  assert (r mod 4 = 0 ∨ r mod 4 = 1 ∨ r mod 4 = 2 ∨ r mod 4 = 3) as Hc by lia.
  unfold valid_kind in Hk.
  assert (k = 0 ∨ k = 1 ∨ k = 2 ∨ k = 3 ∨ k = 4 ∨ k = 5 ∨ k = 6) as Hkc by lia.
  destruct_or! Hc; rewrite Hc; destruct_or! Hkc; subst k;
    vm_compute; reflexivity.
Qed.

(** X2. Whatever the kind and the rotation, a piece covers exactly four
    of the sixteen local cells: the collision test examines, and locking
    writes, four distinct field cells. *)
Theorem piece_covers_four_cells k r :
  valid_kind k →
  length (covered_cells k r) = 4%nat ∧
  NoDup (covered_cells k r) ∧
  (∀ px py, (px, py) ∈ covered_cells k r ↔
            0 ≤ px < 4 ∧ 0 ≤ py < 4 ∧ occupies k r px py).
Proof.
  intros Hk. split; [|split].
  - by apply covered_cells_length.
  - apply NoDup_filter. unfold footprint, py_range.
    vm_compute. repeat (constructor; [rewrite ?elem_of_cons, elem_of_nil; intros H; destruct_or!; discriminate|]).
    constructor.
  - intros px py. apply elem_of_covered_cells.
Qed.

Lemma piece_covers_four_cells_witness : length (covered_cells 6 (-7)) = 4%nat.
Proof.
  destruct (piece_covers_four_cells 6 (-7)) as (H & _); [concrete|].
  exact H.
Defined.

(** ** Score, piece count, speed and fall timer *)

Lemma line_bonus_200 n : 0 ≤ line_bonus n ∧ line_bonus n mod 200 = 0.
Proof.
  destruct n as [|n]; [done|]. unfold line_bonus.
  rewrite Z.shiftl_1_l, Nat2Z.inj_succ, Z.pow_succ_r by lia.
  pose proof (Z.pow_nonneg 2 (Z.of_nat n) ltac:(lia)) as Hp.
  replace (2 * 2 ^ Z.of_nat n * 100) with (2 ^ Z.of_nat n * 200) by lia.
  split; [lia|]. apply Z_mod_mult.
Qed.

Lemma check_lines_score s s' :
  check_lines s = Some s' → ∃ n : nat, score s' = score s + line_bonus n.
Proof.
  unfold check_lines. destruct (lines_to_clear _ _) as [ls|]; [|done].
  cbn [mbind option_bind]. destruct ls as [|y ls].
  - intros [= <-]. exists 0%nat. cbn. lia.
  - destruct (pop_lines _ (y :: ls)); [|done]. cbn [mbind option_bind].
    intros [= <-]. by exists (length (y :: ls)).
Qed.

(** What the gravity step does to the counters, whatever the state. *)
Lemma force_down_step_effect k s s' :
  force_down_step k s = Some s' →
  speed_counter s' = 0 ∧
  ((score s' = score s ∧ piece_count s' = piece_count s ∧ speed s' = speed s) ∨
   (∃ n : nat, score s' = score s + line_bonus n) ∧
   piece_count s' = piece_count s + 1 ∧
   speed s' = speed_after (piece_count s + 1) (speed s)).
Proof.
  unfold force_down_step. destruct (fits_at _ _ _ _) as [[]|]; cbn; [| |done].
  { intros [= <-]. cbn. auto. }
  destruct (lock_piece _) as [s1|] eqn:H1; cbn; [|done].
  destruct (check_lines s1) as [s2|] eqn:H2; cbn; [|done].
  destruct (new_piece k s2) as [s3|] eqn:H3; cbn; [|done].
  apply lock_piece_frame in H1.
  pose proof (check_lines_score _ _ H2) as [n Hn].
  apply check_lines_frame in H2.
  apply new_piece_frame in H3 as (_ & H3sc & H3sp & H3c & H3pc & _).
  assert (speed s3 = speed s) as Hs by (rewrite H3sp, H2; cbn; by rewrite H1).
  assert (piece_count s3 = piece_count s) as Hp by (rewrite H3pc, H2; cbn; by rewrite H1).
  assert (speed_counter s3 = 0) as Hc by (rewrite H3c, H2; cbn; by rewrite H1).
  assert (score s3 = score s + line_bonus n) as Hsc.
  { rewrite H3sc, Hn. f_equal. by rewrite H1. }
  unfold speed_after. rewrite Hs, Hp.
  destruct (Z.eqb_spec ((piece_count s + 1) mod 10) 0) as [Hm|Hm];
    destruct (Z.gtb_spec (speed s) 10) as [Hgt|Hgt]; cbn [andb];
    intros [= <-]; cbn; (split; [done|]); right;
    (split; [by exists n|]); (split; [done|]); case_decide; lia.
Qed.

Lemma on_click_effect b s s' :
  on_click b s = Some s' →
  field s' = field s ∧ score s' = score s ∧ game_over s' = game_over s ∧
  speed s' = speed s ∧ piece_count s' = piece_count s ∧
  current_piece s' = current_piece s ∧
  (speed_counter s' = speed_counter s ∨ speed_counter s' = 0).
Proof.
  destruct b; cbn [on_click];
    unfold handle_left, handle_down, handle_right, handle_rotate;
    destruct (fits_at _ _ _ _) as [[]|]; cbn [mbind option_bind]; try done;
    intros [= <-]; cbn; auto 10.
Qed.

Lemma play_step_counters s s' :
  play_step s s' →
  (∃ n : nat, score s' = score s + line_bonus n) ∧
  ((piece_count s' = piece_count s ∧ speed s' = speed s ∧
    (speed_counter s' = speed_counter s ∨ speed_counter s' = 0 ∨
     (speed_counter s' = speed_counter s + 1 ∧ speed_counter s' < speed s))) ∨
   (piece_count s' = piece_count s + 1 ∧
    speed s' = speed_after (piece_count s + 1) (speed s) ∧
    speed_counter s' = 0)).
Proof.
  destruct 1 as [b s s' Hc|k0 k s s' Hk Hrun].
  - apply on_click_effect in Hc as (_ & Hsc & _ & Hsp & Hpc & _ & Hcnt).
    split; [exists 0%nat; cbn; lia|]. left. intuition.
  - apply script_run_inv in Hrun as (s0 & [= <-] & [(_ & _ & ->)|[Hg Hloop]]).
    { split; [exists 0%nat; cbn; lia|]. left. auto. }
    revert Hloop. unfold game_loop. cbn [speed_counter speed set_speed_counter].
    destruct (Z.geb_spec (speed_counter s + 1) (speed s)) as [Hge|Hlt].
    + intros (Hc & [(Hsc & Hpc & Hsp)|(Hsc & Hpc & Hsp)])%force_down_step_effect;
        cbn in *.
      * split; [exists 0%nat; cbn; lia|]. left. auto.
      * split; [done|]. right. auto.
    + intros [= <-]. cbn. split; [exists 0%nat; cbn; lia|]. left.
      split; [done|]. split; [done|]. right. right. lia.
Qed.

(** States reached from a fresh session satisfy what the first
    execution establishes and every step of play keeps. *)
Lemma reachable_invariant (P : State → Prop) :
  (∀ k0, valid_kind k0 → P (mkState initial_field 0 false 20 1 0 k0 0 4 0)) →
  (∀ s s', reachable s → P s → play_step s s' → P s') →
  ∀ s, reachable s → P s.
Proof.
  intros Hinit Hstep s. induction 1 as [restart k0 k s Hk0 Hk Hrun|s s' Hr IH Hs].
  - rewrite first_run in Hrun by done. injection Hrun as <-. by apply Hinit.
  - by eapply Hstep.
Qed.

Lemma plays_score s s' :
  rtc play_step s s' → score s ≤ score s' ∧ (score s' - score s) mod 200 = 0.
Proof.
  induction 1 as [s|s s1 s2 Hstep _ [IH1 IH2]].
  - rewrite Z.sub_diag. split; [lia|done].
  - apply play_step_counters in Hstep as [[n Hn] _].
    destruct (line_bonus_200 n) as [Hpos Hmod].
    split; [lia|].
    replace (score s2 - score s) with ((score s2 - score s1) + line_bonus n) by lia.
    revert IH2 Hmod. Z.div_mod_to_equations. lia.
Qed.

(** X4. The score never decreases, and every gain is a multiple of 200:
    in every state the session can hold the score is a non-negative
    multiple of 200, and along any play the difference of two scores is
    a non-negative multiple of 200. *)
Theorem score_multiple_of_200 s :
  (reachable s → 0 ≤ score s ∧ score s mod 200 = 0) ∧
  (∀ s', rtc play_step s s' →
     score s ≤ score s' ∧ (score s' - score s) mod 200 = 0).
Proof.
  split; [|intros s'; apply plays_score].
  revert s. apply reachable_invariant.
  - intros k0 _. cbn. split; [lia|done].
  - intros s s' _ [Hpos Hmod] Hstep.
    destruct (plays_score s s') as [Hle Hd]; [by apply rtc_once|].
    split; [lia|]. revert Hmod Hd. Z.div_mod_to_equations. lia.
Qed.

Lemma score_multiple_of_200_witness :
  0 ≤ score (mkState initial_field 0 false 20 1 0 3 0 4 0).
Proof.
  destruct (score_multiple_of_200 (mkState initial_field 0 false 20 1 0 3 0 4 0))
    as [H _].
  apply H. apply (reach_fresh false 3 3); concrete.
Defined.

(** X5. The speed is a function of the number of locked pieces: in
    every state the session can hold, [speed] is 20 minus one for every
    ten locked pieces, but not below 10. *)
Theorem speed_closed_form s :
  reachable s →
  0 ≤ piece_count s ∧ speed s = Z.max 10 (20 - piece_count s `div` 10).
Proof.
  revert s. apply reachable_invariant.
  - intros k0 _. cbn. split; [lia|reflexivity].
  - intros s s' _ [Hpc Hsp] Hstep.
    apply play_step_counters in Hstep as [_ [(-> & -> & _)|(-> & -> & _)]];
      [done|].
    split; [lia|]. unfold speed_after. rewrite Hsp.
    case_decide as Hd; revert Hd; Z.div_mod_to_equations; lia.
Qed.

Lemma speed_closed_form_witness :
  speed (mkState initial_field 0 false 20 1 0 3 0 4 0) = 20.
Proof.
  destruct (speed_closed_form (mkState initial_field 0 false 20 1 0 3 0 4 0))
    as [_ H].
  - apply (reach_fresh false 3 3); concrete.
  - exact H.
Defined.

(** X6. In every state the session can hold the fall timer is within
    [0, speed): the gravity step is never overdue when an execution of
    the script ends. *)
Theorem fall_timer_below_speed s :
  reachable s → 0 ≤ speed_counter s < speed s.
Proof.
  revert s. apply reachable_invariant.
  - intros k0 _. cbn. lia.
  - intros s s' _ Hc Hstep.
    apply play_step_counters in Hstep
      as [_ [(_ & -> & [->|[->|[-> ?]]])|(_ & -> & ->)]]; try lia.
    unfold speed_after. case_decide; lia.
Qed.

Lemma fall_timer_below_speed_witness :
  0 ≤ speed_counter (mkState initial_field 0 false 20 1 0 3 0 4 0) < 20.
Proof.
  apply (fall_timer_below_speed (mkState initial_field 0 false 20 1 0 3 0 4 0)).
  apply (reach_fresh false 3 3); concrete.
Defined.

(** ** Moving left and right *)

(** X7. On a piece that sits at a free placement, a committed move to
    the left followed by a move to the right gives back the very same
    state, and likewise right then left. *)
Theorem left_right_round_trip s :
  fits_at s (current_rotation s) (current_x s) (current_y s) = Some true →
  (fits_at s (current_rotation s) (current_x s - 1) (current_y s) = Some true →
   handle_left s ≫= handle_right = Some s) ∧
  (fits_at s (current_rotation s) (current_x s + 1) (current_y s) = Some true →
   handle_right s ≫= handle_left = Some s).
Proof.
  intros Hcur. split; intros Hmove.
  - rewrite (handle_left_spec s true Hmove). cbn [mbind option_bind].
    erewrite (handle_right_spec _ true).
    + cbn [field score game_over speed speed_counter piece_count current_piece
           current_rotation current_x current_y].
      replace (current_x s - 1 + 1) with (current_x s) by lia.
      by rewrite state_eta.
    + unfold fits_at in *.
      cbn [field score game_over speed speed_counter piece_count current_piece
           current_rotation current_x current_y].
      by replace (current_x s - 1 + 1) with (current_x s) by lia.
  - rewrite (handle_right_spec s true Hmove). cbn [mbind option_bind].
    erewrite (handle_left_spec _ true).
    + cbn [field score game_over speed speed_counter piece_count current_piece
           current_rotation current_x current_y].
      replace (current_x s + 1 - 1) with (current_x s) by lia.
      by rewrite state_eta.
    + unfold fits_at in *.
      cbn [field score game_over speed speed_counter piece_count current_piece
           current_rotation current_x current_y].
      by replace (current_x s + 1 - 1) with (current_x s) by lia.
Qed.

Lemma left_right_round_trip_witness :
  handle_left spawn_state ≫= handle_right = Some spawn_state.
Proof.
  destruct (left_right_round_trip spawn_state) as [H _]; [concrete|].
  apply H. concrete.
Defined.

(** ** Clearing twice *)

Lemma cleared_rows_not_full f :
  Forall (λ row, full_row row = false)
    (replicate (full_count f) fresh_row ++
     filter (λ row, full_row row = false) (playable_rows f)).
Proof.
  apply Forall_app. split.
  - by apply Forall_replicate.
  - apply Forall_forall. by intros row [Hrow _]%list_elem_of_filter.
Qed.

Lemma playable_rows_clear f :
  wf_field f →
  playable_rows (clear_full_lines_spec f)
  = replicate (full_count f) fresh_row ++
    filter (λ row, full_row row = false) (playable_rows f).
Proof.
  intros Hwf. unfold clear_full_lines_spec. rewrite (assoc_L (++)).
  unfold playable_rows at 1. apply take_app_length'.
  by rewrite clear_spec_prefix_length.
Qed.

Lemma bottom_rows_clear f :
  wf_field f → bottom_rows (clear_full_lines_spec f) = bottom_rows f.
Proof.
  intros Hwf. unfold clear_full_lines_spec. rewrite (assoc_L (++)).
  unfold bottom_rows at 1. apply drop_app_length'.
  by rewrite clear_spec_prefix_length.
Qed.

Lemma full_count_clear f :
  wf_field f → full_count (clear_full_lines_spec f) = 0%nat.
Proof.
  intros Hwf. unfold full_count at 1. rewrite playable_rows_clear by done.
  destruct (filter_bool_all full_row _ (cleared_rows_not_full f)) as [_ ->].
  done.
Qed.

Lemma clear_no_full_rows f :
  full_count f = 0%nat → clear_full_lines_spec f = f.
Proof.
  intros H0. unfold clear_full_lines_spec. rewrite H0.
  unfold full_count in H0. rewrite (filter_none_full _ H0).
  unfold playable_rows, bottom_rows. cbn [replicate app]. apply take_drop.
Qed.

(** X8. After [check_lines] no row above the bottom border row is full,
    so calling it again changes nothing; and on a field without a full
    row the first call already leaves the whole state as it is. *)
Theorem check_lines_idempotent s :
  wf_field (field s) →
  ∃ s1, check_lines s = Some s1 ∧
        full_count (field s1) = 0%nat ∧
        check_lines s1 = Some s1 ∧
        (full_count (field s) = 0%nat → s1 = s).
Proof.
  intros Hwf. eexists. split; [by apply check_lines_spec|].
  cbn [field set_field].
  assert (∀ t, full_count (field t) = 0%nat → wf_field (field t) →
            check_lines t = Some t) as Hnoop.
  { intros t H0 Hwft. rewrite check_lines_spec by done.
    rewrite H0, (clear_no_full_rows _ H0). cbn [line_bonus].
    rewrite Z.add_0_r. unfold set_field, set_score. cbn.
    by rewrite state_eta. }
  split; [by apply full_count_clear|]. split.
  - apply Hnoop; cbn [field set_field].
    + by apply full_count_clear.
    + by apply clear_spec_wf.
  - intros H0. specialize (Hnoop s H0 Hwf).
    rewrite check_lines_spec in Hnoop by done. by injection Hnoop.
Qed.

Lemma check_lines_idempotent_witness :
  ∃ s1, check_lines one_line_state = Some s1 ∧ check_lines s1 = Some s1.
Proof.
  destruct (check_lines_idempotent one_line_state) as (s1 & H1 & _ & H2 & _);
    [concrete|].
  exists s1. split; [exact H1|exact H2].
Defined.

(** ** After game over *)

(** X9. Once the game is over, no sequence of button callbacks and
    script executions (short of a restart) changes the field, the score,
    the speed, the piece count or the kind of the piece, and the game
    stays over. *)
Theorem game_over_freezes s s' :
  game_over s = true → rtc play_step s s' →
  game_over s' = true ∧ field s' = field s ∧ score s' = score s ∧
  speed s' = speed s ∧ piece_count s' = piece_count s ∧
  current_piece s' = current_piece s.
Proof.
  intros Hover Hplay. revert Hover.
  induction Hplay as [s|s s1 s2 Hstep _ IH]; intros Hover; [done|].
  assert (game_over s1 = true ∧ field s1 = field s ∧ score s1 = score s ∧
          speed s1 = speed s ∧ piece_count s1 = piece_count s ∧
          current_piece s1 = current_piece s) as (H1 & H2 & H3 & H4 & H5 & H6).
  { destruct Hstep as [b s s1 Hc|k0 k s s1 Hk Hrun].
    - apply on_click_effect in Hc as (? & ? & Hg & ? & ? & ? & _).
      rewrite Hg. done.
    - apply script_run_inv in Hrun as (s0 & [= <-] & [(_ & _ & ->)|[Hg _]]);
        [done|congruence]. }
  destruct (IH H1) as (? & ? & ? & ? & ? & ?).
  split; [done|]. split_and!; congruence.
Qed.

Lemma game_over_freezes_witness :
  ∃ s', handle_left stacked_state = Some s' ∧ field s' = field stacked_state.
Proof.
  destruct (handle_left stacked_state) as [s'|] eqn:Hl; [|vm_compute in Hl; discriminate].
  exists s'. split; [reflexivity|].
  destruct (game_over_freezes stacked_state s') as (_ & H & _); [concrete| |exact H].
  apply rtc_once. by apply (play_click BtnLeft).
Defined.

(** ** The cadence of gravity *)

Lemma exec_run k s : game_over s = false → exec (Run k) s = game_loop k s.
Proof.
  intros Hg. cbn [exec]. unfold script_run.
  cbn [initialize_game mbind option_bind]. rewrite Hg.
  by destruct (game_loop k s).
Qed.

Lemma exec_runs_wait k (n : nat) s :
  game_over s = false → speed_counter s + Z.of_nat n < speed s →
  exec_trace (replicate n (Run k)) s
  = Some (set_speed_counter (speed_counter s + Z.of_nat n) s).
Proof.
  revert s. induction n as [|n IH]; intros s Hg Hlt.
  - cbn. rewrite Z.add_0_r. unfold set_speed_counter. by rewrite state_eta.
  - cbn [replicate exec_trace]. rewrite exec_run by done.
    unfold game_loop. cbn [speed_counter speed set_speed_counter].
    destruct (Z.geb_spec (speed_counter s + 1) (speed s)) as [?|_]; [lia|].
    cbn [mbind option_bind]. rewrite IH; cbn; [|done|lia].
    unfold set_speed_counter. cbn. do 2 f_equal. lia.
Qed.

(** X10. Gravity acts once every [speed] executions: in a running game
    with the fall timer at [c], the next [n] executions of the script
    with [c + n < speed] change nothing but the timer, which becomes
    [c + n]; and when [c + n + 1] reaches [speed], one more execution
    performs the gravity step. *)
Theorem gravity_cadence k (n : nat) s :
  game_over s = false → speed_counter s + Z.of_nat n < speed s →
  exec_trace (replicate n (Run k)) s
  = Some (set_speed_counter (speed_counter s + Z.of_nat n) s) ∧
  (speed s ≤ speed_counter s + Z.of_nat n + 1 →
   exec_trace (replicate n (Run k) ++ [Run k]) s
   = force_down_step k (set_speed_counter (speed_counter s + Z.of_nat n + 1) s)).
Proof.
  intros Hg Hlt. split; [by apply exec_runs_wait|]. intros Hge.
  assert (∀ es1 es2 t, exec_trace (es1 ++ es2) t
                       = exec_trace es1 t ≫= exec_trace es2) as Happ.
  { induction es1 as [|e es1 IH]; intros es2 t; [done|].
    cbn [app exec_trace]. destruct (exec e t); [|done]. apply IH. }
  rewrite Happ, exec_runs_wait by done. cbn [mbind option_bind exec_trace].
  rewrite exec_run by done. unfold game_loop.
  cbn [speed_counter speed set_speed_counter].
  destruct (Z.geb_spec (speed_counter s + Z.of_nat n + 1) (speed s)) as [_|?]; [|lia].
  by destruct (force_down_step _ _).
Qed.

Lemma gravity_cadence_witness :
  exec_trace (replicate 19 (Run 0)) spawn_state
  = Some (set_speed_counter 19 spawn_state).
Proof.
  destruct (gravity_cadence 0 19 spawn_state) as [H _]; [concrete|cbn; lia|].
  exact H.
Defined.

(** ** Cell values *)

Lemma cell_Some_in_field f x y c :
  wf_field f → 0 ≤ x → 0 ≤ y → cell f x y = Some c → in_field x y.
Proof.
  intros Hwf Hx Hy. unfold cell.
  destruct (f !! Z.to_nat y) as [row|] eqn:Hrow; [|done]. cbn [mbind option_bind].
  intros Hc. pose proof (wf_field_row _ _ _ Hwf Hrow) as Hlen.
  apply lookup_lt_Some in Hrow, Hc. destruct Hwf as [Hh _].
  unfold in_field, FIELD_WIDTH, FIELD_HEIGHT in *. lia.
Qed.

Lemma cells_valid_initial : cells_valid initial_field.
Proof.
  intros x y c Hx Hy Hc.
  pose proof (cell_Some_in_field _ _ _ _ wf_initial_field Hx Hy Hc) as Hin.
  rewrite cell_initial_field in Hc by done. injection Hc as <-.
  unfold border_cell, color_index_ok. case_match; lia.
Qed.

Lemma fresh_row_values (n : nat) c :
  fresh_row !! n = Some c → color_index_ok c.
Proof.
  unfold color_index_ok.
  do 12 (destruct n as [|n]; [intros [= <-]; lia|]). done.
Qed.

Lemma clear_cells_valid f :
  wf_field f → cells_valid f → cells_valid (clear_full_lines_spec f).
Proof.
  intros Hwf Hval x y c Hx Hy. unfold cell.
  destruct (clear_full_lines_spec f !! Z.to_nat y) as [row|] eqn:Hrow; [|done].
  cbn [mbind option_bind]. intros Hc.
  apply list_elem_of_lookup_2 in Hrow. unfold clear_full_lines_spec in Hrow.
  assert (row = fresh_row ∨ row ∈ f) as [->|Hin].
  { rewrite !elem_of_app in Hrow. destruct Hrow as [Hrow|[Hrow|Hrow]].
    - left. by apply elem_of_replicate in Hrow as [-> _].
    - right. apply list_elem_of_filter in Hrow as [_ Hrow].
      by eapply subseteq_take.
    - right. by eapply subseteq_drop. }
  - by eapply fresh_row_values.
  - apply list_elem_of_lookup_1 in Hin as [y' Hy'].
    apply (Hval x (Z.of_nat y')); [done|lia|].
    unfold cell. rewrite Nat2Z.id, Hy'. done.
Qed.

Lemma lock_cells_valid f k r x y f' :
  wf_field f → valid_kind k → placement_free f k r x y →
  lock_cells f k r x y footprint = Some f' →
  cells_valid f → cells_valid f'.
Proof.
  intros Hwf Hk Hfree Hlock Hval.
  destruct (lock_cells_spec f k r x y footprint Hwf Hk)
    as (f1 & Hf1 & _ & _ & _ & Hmono).
  { intros px py. by rewrite elem_of_footprint. }
  { intros px py [Hx Hy]%elem_of_footprint Ho. by apply Hfree. }
  rewrite Hlock in Hf1. injection Hf1 as <-.
  intros cx cy c Hcx Hcy Hc.
  destruct (Hmono cx cy Hcx Hcy) as [Heq|Heq]; rewrite Heq in Hc.
  - exact (Hval cx cy c Hcx Hcy Hc).
  - injection Hc as <-. unfold color_index_ok, valid_kind in *. lia.
Qed.

Lemma play_step_cells_valid s s' :
  state_ok s → cells_valid (field s) → play_step s s' → cells_valid (field s').
Proof.
  intros (Hwf & Hb & Hp & Hfit) Hval.
  destruct 1 as [b s s' Hc|k0 k s s' Hk Hrun].
  - apply on_click_effect in Hc as (-> & _). done.
  - apply script_run_inv in Hrun as (s0 & [= <-] & [(_ & _ & ->)|[Hg Hloop]]);
      [done|].
    revert Hloop. unfold game_loop. cbn [speed_counter speed set_speed_counter].
    destruct (_ >=? _); [|by intros [= <-]].
    set (s0 := set_speed_counter (speed_counter s + 1) s). intros Hstep.
    destruct (force_down_step_cases k s0 Hwf Hp Hk (Hfit Hg))
      as [[_ Hs]|(_ & f1 & ok & Hlock & Hwf1 & _ & _ & _ & _ & Hs)];
      rewrite Hs in Hstep; injection Hstep as <-; [done|].
    cbn [field]. apply clear_cells_valid; [done|].
    unfold lock_piece in Hlock.
    destruct (lock_cells _ _ _ _ _ _) as [f2|] eqn:Hl; [|done].
    injection Hlock as ->.
    eapply lock_cells_valid; [exact Hwf|exact Hp| |exact Hl|exact Hval].
    apply fit_placement_free; [done..|]. by apply Hfit.
Qed.

Lemma reachable_cells_valid s : reachable s → cells_valid (field s).
Proof.
  revert s. apply reachable_invariant.
  - intros k0 _. apply cells_valid_initial.
  - intros s s' Hr Hval Hstep.
    by eapply play_step_cells_valid; [apply reachable_ok|..].
Qed.

Lemma color_lookup c :
  color_index_ok c → ∃ color, py_getitem COLORS c = Some color.
Proof.
  unfold color_index_ok. intros Hc.
  assert (c = 0 ∨ c = 1 ∨ c = 2 ∨ c = 3 ∨ c = 4 ∨ c = 5 ∨ c = 6 ∨ c = 7 ∨ c = 9)
    as Hcases by lia.
  destruct_or!; subst c; eexists; reflexivity.
Qed.

(** X3. In every state the session can hold, every cell of the field
    holds 0, a piece value 1..7 or the border value 9 (never 8, never a
    negative number), so every cell value is a valid index into
    [COLORS]. *)
Theorem cell_values_index_colors s :
  reachable s →
  ∀ x y, in_field x y →
    ∃ c color, cell (field s) x y = Some c ∧ (0 ≤ c ≤ 7 ∨ c = 9) ∧
               py_getitem COLORS c = Some color.
Proof.
  intros Hr x y Hin.
  destruct (reachable_ok s Hr) as (Hwf & _).
  destruct (wf_field_cell _ x y Hwf Hin) as (row & c & Hrow & Hc).
  assert (cell (field s) x y = Some c) as Hcell.
  { unfold cell. by rewrite Hrow. }
  assert (color_index_ok c) as Hok.
  { eapply (reachable_cells_valid s Hr x y); [apply Hin..|done]. }
  destruct (color_lookup c Hok) as [color Hcolor].
  by exists c, color.
Qed.

Lemma cell_values_index_colors_witness :
  ∃ c color, cell stacked_field 6 1 = Some c ∧ (0 ≤ c ≤ 7 ∨ c = 9) ∧
             py_getitem COLORS c = Some color.
Proof.
  apply (cell_values_index_colors stacked_state).
  - apply stacked_state_reachable.
  - unfold in_field, FIELD_WIDTH, FIELD_HEIGHT. lia.
Defined.

(** ** Rendering *)

Lemma elem_of_board_cells x y : (x, y) ∈ board_cells → in_field x y.
Proof.
  unfold board_cells, py_range.
  intros (y' & (x' & [= -> ->]%list_elem_of_singleton & Hx)%list_elem_of_bind & Hy)%list_elem_of_bind.
  apply elem_of_seqZ in Hx, Hy. unfold in_field. lia.
Qed.

Lemma board_cells_lookup x y :
  in_field x y → board_cells !! Z.to_nat (y * FIELD_WIDTH + x) = Some (x, y).
Proof.
  unfold in_field, FIELD_WIDTH, FIELD_HEIGHT. intros [Hx Hy].
  assert (x = 0 ∨ x = 1 ∨ x = 2 ∨ x = 3 ∨ x = 4 ∨ x = 5 ∨ x = 6 ∨ x = 7 ∨
          x = 8 ∨ x = 9 ∨ x = 10 ∨ x = 11) as Hxc by lia.
  assert (y = 0 ∨ y = 1 ∨ y = 2 ∨ y = 3 ∨ y = 4 ∨ y = 5 ∨ y = 6 ∨ y = 7 ∨
          y = 8 ∨ y = 9 ∨ y = 10 ∨ y = 11 ∨ y = 12 ∨ y = 13 ∨ y = 14 ∨
          y = 15 ∨ y = 16 ∨ y = 17) as Hyc by lia.
  clear Hx Hy. destruct_or! Hxc; subst x; destruct_or! Hyc; subst y; reflexivity.
Qed.

Lemma draw_field_spec f cells :
  wf_field f → cells_valid f →
  (∀ x y, (x, y) ∈ cells → in_field x y) →
  ∃ parts, draw_field f cells = Some parts ∧
    length parts = length cells ∧
    ∀ i x y, cells !! i = Some (x, y) →
      ∃ c color, cell f x y = Some c ∧ py_getitem COLORS c = Some color ∧
                 parts !! i = Some (svg_rect x y color).
Proof.
  intros Hwf Hval. induction cells as [|[x y] rest IH]; intros Hin.
  - exists []. split; [done|]. split; [done|]. intros i ?? H.
    by rewrite lookup_nil in H.
  - destruct IH as (parts & Hparts & Hlen & Hrest).
    { intros ?? H. apply Hin. by right. }
    assert (in_field x y) as Hxy by (apply Hin; left).
    destruct (wf_field_cell f x y Hwf Hxy) as (row & c & Hrow & Hc).
    assert (cell f x y = Some c) as Hcell by (unfold cell; by rewrite Hrow).
    destruct (color_lookup c) as [color Hcolor].
    { destruct Hxy as [Hx Hy]. by apply (Hval x y c); [lia..|]. }
    exists (svg_rect x y color :: parts). split.
    + cbn [draw_field]. destruct Hxy as [Hx Hy].
      rewrite (py_getitem_nonneg f) by lia. rewrite Hrow. cbn [mbind option_bind].
      rewrite (py_getitem_nonneg row) by lia. rewrite Hc. cbn [mbind option_bind].
      rewrite Hcolor. cbn [mbind option_bind]. by rewrite Hparts.
    + split; [cbn; by rewrite Hlen|].
      intros [|i] qx qy Hq.
      * injection Hq as <- <-. by exists c, color.
      * by apply Hrest.
Qed.

Lemma draw_piece_spec k r x y color cells :
  valid_kind k →
  (∀ px py, (px, py) ∈ cells → 0 ≤ px < 4 ∧ 0 ≤ py < 4) →
  draw_piece k r x y color cells
  = Some ((λ c, svg_rect (x + c.1) (y + c.2) color) <$>
          filter (λ c, piece_cell k r c.1 c.2 = Some true) cells).
Proof.
  intros Hk. induction cells as [|[px py] rest IH]; intros Hin; [done|].
  destruct (Hin px py) as [Hx Hy]; [left|].
  destruct (piece_cell_is_Some k r px py Hk Hx Hy) as [occ Hocc].
  cbn [draw_piece]. rewrite Hocc. cbn [mbind option_bind].
  rewrite IH by (intros ?? H; apply Hin; by right).
  cbn [mbind option_bind]. rewrite filter_cons. cbn [fst snd]. rewrite Hocc.
  destruct occ.
  - by rewrite decide_True by done.
  - by rewrite decide_False by done.
Qed.

Lemma svg_parts_spec s :
  wf_field (field s) → cells_valid (field s) → valid_kind (current_piece s) →
  ∃ board color,
    svg_parts s
    = Some (board ++
            ((λ c, svg_rect (current_x s + c.1) (current_y s + c.2) color) <$>
             covered_cells (current_piece s) (current_rotation s))) ∧
    length board = 216%nat ∧
    py_getitem COLORS (current_piece s + 1) = Some color ∧
    (∀ x y, in_field x y →
       ∃ c col, cell (field s) x y = Some c ∧ py_getitem COLORS c = Some col ∧
                board !! Z.to_nat (y * FIELD_WIDTH + x) = Some (svg_rect x y col)).
Proof.
  intros Hwf Hval Hk.
  destruct (draw_field_spec (field s) board_cells Hwf Hval)
    as (board & Hboard & Hlen & Hcells).
  { apply elem_of_board_cells. }
  destruct (color_lookup (current_piece s + 1)) as [color Hcolor].
  { unfold color_index_ok, valid_kind in *. lia. }
  exists board, color. split; [|split; [|split]].
  - unfold svg_parts. rewrite Hboard. cbn [mbind option_bind].
    rewrite Hcolor. cbn [mbind option_bind].
    rewrite draw_piece_spec; [done|done|].
    intros px py. by rewrite elem_of_footprint.
  - by rewrite Hlen.
  - done.
  - intros x y Hin. apply Hcells. by apply board_cells_lookup.
Qed.

(** X11. In every state the session can hold, [draw_board_svg]
    returns (no lookup fails) and its list of rectangles is made of 216
    rectangles for the field, the one at position [12 y + x] showing
    cell [(x, y)] in the colour of its value, followed by 4 rectangles
    for the covered cells of the current piece, in the colour of the
    piece's value. *)
Theorem draw_board_svg_rectangles s :
  reachable s →
  ∃ board color,
    svg_parts s
    = Some (board ++
            ((λ c, svg_rect (current_x s + c.1) (current_y s + c.2) color) <$>
             covered_cells (current_piece s) (current_rotation s))) ∧
    length board = 216%nat ∧
    length (covered_cells (current_piece s) (current_rotation s)) = 4%nat ∧
    py_getitem COLORS (current_piece s + 1) = Some color ∧
    (∀ x y, in_field x y →
       ∃ c col, cell (field s) x y = Some c ∧ py_getitem COLORS c = Some col ∧
                board !! Z.to_nat (y * FIELD_WIDTH + x) = Some (svg_rect x y col)) ∧
    is_Some (draw_board_svg s).
Proof.
  intros Hr. destruct (reachable_ok s Hr) as (Hwf & _ & Hk & _).
  destruct (svg_parts_spec s Hwf (reachable_cells_valid s Hr) Hk)
    as (board & color & Hparts & Hlen & Hcolor & Hcells).
  exists board, color. split; [done|]. split; [done|]. split.
  { by apply covered_cells_length. }
  split; [done|]. split; [done|].
  unfold draw_board_svg. rewrite Hparts. cbn [mbind option_bind].
  by eexists.
Qed.

Lemma draw_board_svg_rectangles_witness :
  is_Some (draw_board_svg stacked_state).
Proof.
  destruct (draw_board_svg_rectangles stacked_state)
    as (board & color & _ & _ & _ & _ & _ & H).
  - apply stacked_state_reachable.
  - exact H.
Defined.

(** ** No exception during play *)

Lemma draw_board_svg_total s :
  wf_field (field s) → cells_valid (field s) → valid_kind (current_piece s) →
  is_Some (draw_board_svg s).
Proof.
  intros Hwf Hval Hk.
  destruct (svg_parts_spec s Hwf Hval Hk) as (board & color & Hparts & _).
  unfold draw_board_svg. rewrite Hparts. cbn [mbind option_bind]. by eexists.
Qed.

Lemma on_click_total b s :
  wf_field (field s) → valid_kind (current_piece s) → is_Some (on_click b s).
Proof.
  intros Hwf Hk.
  assert (∀ r x y, ∃ ok, fits_at s r x y = Some ok) as Htot.
  { intros r x y. unfold fits_at. by apply does_piece_fit_total. }
  destruct b; cbn [on_click].
  - destruct (Htot (current_rotation s) (current_x s - 1) (current_y s)) as [ok Hok].
    rewrite (handle_left_spec s ok Hok). by eexists.
  - destruct (Htot (current_rotation s) (current_x s) (current_y s + 1)) as [ok Hok].
    rewrite (handle_down_spec s ok Hok). by eexists.
  - destruct (Htot (current_rotation s) (current_x s + 1) (current_y s)) as [ok Hok].
    rewrite (handle_right_spec s ok Hok). by eexists.
  - destruct (Htot (current_rotation s + 1) (current_x s) (current_y s)) as [ok Hok].
    rewrite (handle_rotate_spec s ok Hok). by eexists.
Qed.

Lemma game_loop_total k s :
  state_ok s → game_over s = false → valid_kind k → is_Some (game_loop k s).
Proof.
  intros (Hwf & _ & Hp & Hfit) Hg Hk. unfold game_loop.
  cbn [speed_counter speed set_speed_counter]. destruct (_ >=? _); [|by eexists].
  set (s0 := set_speed_counter (speed_counter s + 1) s).
  destruct (force_down_step_cases k s0 Hwf Hp Hk (Hfit Hg))
    as [[_ ->]|(_ & f1 & ok & _ & _ & _ & _ & _ & _ & ->)]; by eexists.
Qed.

(** X12. Play never raises: in every state the session can hold, each
    of the four handlers returns, and an execution of the script,
    rendering included, completes and leaves a state the session can
    hold, the same state as the execution without rendering; the
    first execution on an empty session completes as well, whatever
    kind is drawn. *)
Theorem play_never_raises s k0 k :
  reachable s → valid_kind k →
  (∀ b, is_Some (on_click b s)) ∧
  (∃ s', script_run_render false k0 k (Some s) = Some (Some s') ∧
         script_run false k0 k (Some s) = Some (Some s') ∧
         reachable s') ∧
  (∀ restart k1, valid_kind k1 →
     script_run_render restart k1 k None
     = Some (Some (mkState initial_field 0 false 20 1 0 k1 0 4 0))).
Proof.
  intros Hr Hk. pose proof (reachable_ok s Hr) as Hok.
  pose proof Hok as (Hwf & _ & Hp & _). split; [|split].
  - intros b. by apply on_click_total.
  - assert (∀ s', script_run false k0 k (Some s) = Some (Some s') →
              reachable s') as Hnext.
    { intros s' Hrun. eapply reach_play; [exact Hr|]. by apply (play_run k0 k). }
    revert Hnext. unfold script_run_render, script_run.
    cbn [initialize_game mbind option_bind].
    destruct (game_over s) eqn:Hg.
    { intros Hnext. exists s. split; [done|]. split; [done|]. by apply Hnext. }
    destruct (draw_board_svg_total s Hwf (reachable_cells_valid s Hr) Hp) as [svg ->].
    cbn [mbind option_bind].
    destruct (game_loop_total k s Hok Hg Hk) as [s' ->].
    cbn [mbind option_bind].
    intros Hnext. exists s'. split; [done|]. split; [done|]. by apply Hnext.
  - intros restart k1 Hk1. unfold script_run_render.
    destruct (initialize_game_fresh k1 Hk1) as (ok & Hfit & ->).
    rewrite (spawn_fits_initial k1 Hk1) in Hfit. injection Hfit as <-.
    cbn [mbind option_bind negb game_over].
    destruct (draw_board_svg_total (mkState initial_field 0 false 20 0 0 k1 0 4 0))
      as [svg ->]; [apply wf_initial_field|apply cells_valid_initial|done|].
    reflexivity.
Qed.

Lemma play_never_raises_witness :
  ∃ s', script_run_render false 0 0
          (Some (mkState initial_field 0 false 20 1 0 3 0 4 0)) = Some (Some s').
Proof.
  destruct (play_never_raises (mkState initial_field 0 false 20 1 0 3 0 4 0) 0 0)
    as (_ & (s' & H & _) & _); [|concrete|by exists s'].
  apply (reach_fresh false 3 3); concrete.
Defined.

(** ** Soft drop and gravity *)

(** X13. While the piece fits one row lower, the down button does
    exactly what the gravity step does: both move the piece down by one
    and reset the fall timer, so [handle_down] and [force_down_step]
    give the same state.  When it does not fit, [handle_down] leaves
    the state alone: it never locks the piece. *)
Theorem soft_drop_is_gravity_fall k s :
  (fits_at s (current_rotation s) (current_x s) (current_y s + 1) = Some true →
   force_down_step k s = handle_down s) ∧
  (fits_at s (current_rotation s) (current_x s) (current_y s + 1) = Some false →
   handle_down s = Some s).
Proof.
  split; intros Hfit.
  - rewrite (force_down_fall k s Hfit). by rewrite (handle_down_spec s true Hfit).
  - by rewrite (handle_down_spec s false Hfit).
Qed.

Lemma soft_drop_is_gravity_fall_witness :
  force_down_step 0 spawn_state = handle_down spawn_state.
Proof.
  destruct (soft_drop_is_gravity_fall 0 spawn_state) as [H _].
  apply H. concrete.
Defined.

(** ** At most four lines at once *)

Section filter_band.
Context {A : Type} (P : A → Prop) `{∀ x, Decision (P x)}.

Lemma filter_none (l : list A) : Forall (λ x, ¬ P x) l → filter P l = [].
Proof.
  induction 1 as [|x l Hx _ IH]; [done|].
  rewrite filter_cons, IH. by rewrite decide_False.
Qed.

Lemma filter_length_band (l : list A) (a : nat) :
  (∀ i x, l !! i = Some x → P x → (a ≤ i < a + 4)%nat) →
  (length (filter P l) ≤ 4)%nat.
Proof.
  intros Hband.
  rewrite <- (take_drop a l), <- (take_drop 4 (drop a l)), !filter_app, !length_app.
  rewrite (filter_none (take a l)), (filter_none (drop 4 (drop a l))).
  - pose proof (length_filter P (take 4 (drop a l))) as H1.
    pose proof (length_take_le (drop a l) 4). cbn [length].
    rewrite length_take in H1. lia.
  - apply Forall_lookup. intros i x Hi Hx. rewrite !lookup_drop in Hi.
    specialize (Hband _ _ Hi Hx). lia.
  - apply Forall_lookup. intros i x Hi Hx.
    apply lookup_take_Some in Hi as [Hi Hlt].
    specialize (Hband _ _ Hi Hx). lia.
Qed.
End filter_band.

Lemma full_count_0_rows f (i : nat) row :
  full_count f = 0%nat → (i < 17)%nat → f !! i = Some row → full_row row = false.
Proof.
  unfold full_count, playable_rows. intros H0 Hi Hrow.
  apply length_zero_iff_nil in H0.
  destruct (full_row row) eqn:Hfull; [|done]. exfalso.
  assert (row ∈ filter (λ row, full_row row = true) (take 17 f)) as Hin.
  { apply list_elem_of_filter. split; [done|].
    apply elem_of_take. by exists i. }
  change (Z.to_nat (FIELD_HEIGHT - 1)) with 17%nat in H0. rewrite H0 in Hin.
  by apply elem_of_nil in Hin.
Qed.

Lemma same_cells_same_row f f' (i : nat) row row' :
  f !! i = Some row → f' !! i = Some row' →
  (∀ cx, 0 ≤ cx → cell f' cx (Z.of_nat i) = cell f cx (Z.of_nat i)) →
  row' = row.
Proof.
  intros Hrow Hrow' Hcells. apply list_eq. intros n.
  specialize (Hcells (Z.of_nat n) ltac:(lia)). unfold cell in Hcells.
  by rewrite !Nat2Z.id, Hrow, Hrow' in Hcells.
Qed.

Lemma line_bonus_le_1600 (n : nat) : (n ≤ 4)%nat → 0 ≤ line_bonus n ≤ 1600.
Proof.
  intros Hn.
  do 5 (destruct n as [|n]; [split; apply Z.leb_le; vm_compute; reflexivity|]).
  lia.
Qed.

Lemma reachable_no_full_row s : reachable s → full_count (field s) = 0%nat.
Proof.
  revert s. apply reachable_invariant.
  - intros k0 _. reflexivity.
  - intros s s' Hr H0 Hstep. pose proof (reachable_ok s Hr) as (Hwf & _ & Hp & Hfit).
    destruct Hstep as [b s s' Hc|k0 k s s' Hk Hrun].
    + apply on_click_effect in Hc as (-> & _). done.
    + apply script_run_inv in Hrun as (s0 & [= <-] & [(_ & _ & ->)|[Hg Hloop]]);
        [done|].
      revert Hloop. unfold game_loop. cbn [speed_counter speed set_speed_counter].
      destruct (_ >=? _); [|by intros [= <-]].
      set (s0 := set_speed_counter (speed_counter s + 1) s). intros Hstep.
      destruct (force_down_step_cases k s0 Hwf Hp Hk (Hfit Hg))
        as [[_ Hs]|(_ & f1 & ok & _ & Hwf1 & _ & _ & _ & _ & Hs)];
        rewrite Hs in Hstep; injection Hstep as <-; [done|].
      cbn [field]. by apply full_count_clear.
Qed.

(** X14. No full row is ever left on the board between two executions,
    and a gravity step clears at most four lines: in every running
    state the session can hold, the step raises the score by 0, 200,
    400, 800 or 1600, never by more. *)
Theorem at_most_four_lines k s s' :
  reachable s → game_over s = false → valid_kind k →
  force_down_step k s = Some s' →
  full_count (field s) = 0%nat ∧ full_count (field s') = 0%nat ∧
  ∃ n : nat, (n ≤ 4)%nat ∧ score s' = score s + line_bonus n ∧
             score s ≤ score s' ≤ score s + 1600.
Proof.
  intros Hr Hg Hk Hstep.
  pose proof (reachable_no_full_row s Hr) as H0.
  pose proof (reachable_ok s Hr) as (Hwf & _ & Hp & Hfit).
  split; [done|].
  destruct (force_down_step_cases k s Hwf Hp Hk (Hfit Hg))
    as [[_ Hs]|(_ & f1 & ok & _ & Hwf1 & _ & _ & Hunch & _ & Hs)];
    rewrite Hs in Hstep; injection Hstep as <-; cbn [field score].
  { split; [done|]. exists 0%nat. cbn. lia. }
  split; [by apply full_count_clear|].
  assert (full_count f1 ≤ 4)%nat as Hle.
  { unfold full_count.
    apply (filter_length_band _ _ (Z.to_nat (current_y s))).
    intros i row1 Hi Hfull. apply lookup_take_Some in Hi as [Hi Hlt].
    change (Z.to_nat (FIELD_HEIGHT - 1)) with 17%nat in Hlt.
    destruct (decide (current_y s ≤ Z.of_nat i < current_y s + 4)) as [?|Hout];
      [lia|]. exfalso.
    destruct (lookup_lt_is_Some_2 (field s) i) as [row Hrow].
    { destruct Hwf as [Hh _]. change (length (field s) = 18%nat) in Hh. lia. }
    assert (row1 = row) as ->.
    { apply (same_cells_same_row (field s) f1 i); [done..|].
      intros cx Hcx. apply Hunch; [done|lia|]. intros px py Hpx Hpy _. lia. }
    rewrite (full_count_0_rows (field s) i row H0 Hlt Hrow) in Hfull. done. }
  exists (full_count f1). split; [done|]. split; [done|].
  pose proof (line_bonus_le_1600 _ Hle). lia.
Qed.

Lemma at_most_four_lines_witness :
  ∃ n : nat, (n ≤ 4)%nat ∧
    score (mkState initial_field 0 false 20 0 0 3 0 4 1)
    = score (mkState initial_field 0 false 20 1 0 3 0 4 0) + line_bonus n.
Proof.
  destruct (at_most_four_lines 3 (mkState initial_field 0 false 20 1 0 3 0 4 0)
              (mkState initial_field 0 false 20 0 0 3 0 4 1))
    as (_ & _ & n & Hn & Hsc & _); [|concrete..|].
  - apply (reach_fresh false 3 3); concrete.
  - exists n. split; [exact Hn|exact Hsc].
Defined.
